(** * MeKu Storybook Builder: the panel-tree layout engine

    A shallow embedding of the tree utilities of the graphic-novel page
    editor ([findNode], [updateNode], [applyResize], [appendGeneratedLine],
    the layout presets and the inspector updaters) together with the
    properties the specification states about them.

    JavaScript numbers are kept behind a small interface, [JSNumber], with
    two implementations: [float], the binary64 numbers the program really
    computes with, and [xnum], the same arithmetic without rounding
    (rationals extended with NaN and the two infinities).  Everything
    structural is proved for any implementation; concrete runs are evaluated
    in binary64; algebraic facts about sums are proved in exact
    arithmetic. *)

From Stdlib Require Import ZArith QArith Qminmax Qabs Uint63 PrimFloat String Ascii Lia Lqa.
From Stdlib Require Import DecimalString.
From stdpp Require Import base tactics list.

Set Warnings "-inexact-float,-register-all".
Local Open Scope nat_scope.

(* ================================================================== *)
(** * JavaScript numbers *)
(* ================================================================== *)

(** The operations on numbers the source uses: [+ - * /], [Math.max],
    [Math.min], [Math.abs], [<], [<=], decimal literals, and NaN (what an
    arithmetic operation yields on [undefined]). *)
Class JSNumber (num : Type) := {
  nadd : num -> num -> num;
  nsub : num -> num -> num;
  nmul : num -> num -> num;
  ndiv : num -> num -> num;
  Math_max : num -> num -> num;
  Math_min : num -> num -> num;
  Math_abs : num -> num;
  nlt : num -> num -> bool;
  nle : num -> num -> bool;
  nan : num;
  (** [dec m e] is the decimal literal [m * 10^-e]: [dec 8 2] reads [0.08]. *)
  dec : Z -> nat -> num
}.

(** ** Binary64 *)

Module F64.

(** [Math.max]: NaN if either argument is NaN, [+0] is larger than [-0]. *)
Definition max (a b : float) : float :=
  if (is_nan a || is_nan b)%bool then PrimFloat.nan
  else if PrimFloat.ltb a b then b
  else if PrimFloat.ltb b a then a
  else if (is_zero a && get_sign a)%bool then b
  else a.

(** [Math.min]: NaN if either argument is NaN, [-0] is smaller than [+0]. *)
Definition min (a b : float) : float :=
  if (is_nan a || is_nan b)%bool then PrimFloat.nan
  else if PrimFloat.ltb a b then a
  else if PrimFloat.ltb b a then b
  else if (is_zero a && negb (get_sign a))%bool then b
  else a.

(** A decimal literal denotes the double nearest to its value.  For a
    mantissa and a power of ten below 2^53 both are doubles, and the
    correctly rounded quotient is that nearest double. *)
Definition of_Z (z : Z) : float :=
  match z with
  | Zneg p => PrimFloat.opp (PrimFloat.of_uint63 (Uint63.of_Z (Zpos p)))
  | _ => PrimFloat.of_uint63 (Uint63.of_Z z)
  end.

Definition lit (m : Z) (e : nat) : float :=
  PrimFloat.div (of_Z m) (of_Z (10 ^ Z.of_nat e)).

End F64.

#[export] Instance float_number : JSNumber float := {|
  nadd := PrimFloat.add;
  nsub := PrimFloat.sub;
  nmul := PrimFloat.mul;
  ndiv := PrimFloat.div;
  Math_max := F64.max;
  Math_min := F64.min;
  Math_abs := PrimFloat.abs;
  nlt := PrimFloat.ltb;
  nle := PrimFloat.leb;
  nan := PrimFloat.nan;
  dec := F64.lit
|}.

(** ** Exact arithmetic *)

(** Binary64 without rounding, overflow or a signed zero: a rational, one of
    the two infinities, or NaN. *)
Inductive xnum : Type :=
  | XNaN
  | XInf (negative : bool)
  | XFin (q : Q).

Module Exact.

Definition is_neg (q : Q) : bool := negb (Qle_bool 0 q).
Definition is_zero (q : Q) : bool := Qeq_bool q 0.

Definition opp (a : xnum) : xnum :=
  match a with
  | XNaN => XNaN
  | XInf s => XInf (negb s)
  | XFin q => XFin (- q)
  end.

Definition add (a b : xnum) : xnum :=
  match a, b with
  | XNaN, _ | _, XNaN => XNaN
  | XInf s, XInf t => if Bool.eqb s t then XInf s else XNaN
  | XInf s, XFin _ | XFin _, XInf s => XInf s
  | XFin p, XFin q => XFin (p + q)
  end.

Definition sub (a b : xnum) : xnum := add a (opp b).

Definition mul (a b : xnum) : xnum :=
  match a, b with
  | XNaN, _ | _, XNaN => XNaN
  | XInf s, XInf t => XInf (xorb s t)
  | XInf s, XFin q | XFin q, XInf s =>
      if is_zero q then XNaN else XInf (xorb s (is_neg q))
  | XFin p, XFin q => XFin (p * q)
  end.

Definition div (a b : xnum) : xnum :=
  match a, b with
  | XNaN, _ | _, XNaN => XNaN
  | XInf _, XInf _ => XNaN
  | XInf s, XFin q => XInf (xorb s (is_neg q))
  | XFin _, XInf _ => XFin 0
  | XFin p, XFin q =>
      if is_zero q then (if is_zero p then XNaN else XInf (is_neg p))
      else XFin (p / q)
  end.

Definition ltb (a b : xnum) : bool :=
  match a, b with
  | XNaN, _ | _, XNaN => false
  | XInf s, XInf t => (s && negb t)%bool
  | XInf s, XFin _ => s
  | XFin _, XInf t => negb t
  | XFin p, XFin q => negb (Qle_bool q p)
  end.

Definition leb (a b : xnum) : bool :=
  match a, b with
  | XNaN, _ | _, XNaN => false
  | XInf s, XInf t => (s || negb t)%bool
  | XInf s, XFin _ => s
  | XFin _, XInf t => negb t
  | XFin p, XFin q => Qle_bool p q
  end.

Definition is_nan (a : xnum) : bool :=
  match a with XNaN => true | _ => false end.

Definition max (a b : xnum) : xnum :=
  if (is_nan a || is_nan b)%bool then XNaN
  else if ltb a b then b else a.

Definition min (a b : xnum) : xnum :=
  if (is_nan a || is_nan b)%bool then XNaN
  else if ltb b a then b else a.

Definition abs (a : xnum) : xnum :=
  match a with
  | XNaN => XNaN
  | XInf _ => XInf false
  | XFin q => XFin (Qabs q)
  end.

Definition lit (m : Z) (e : nat) : xnum :=
  XFin (m # Z.to_pos (10 ^ Z.of_nat e)).

End Exact.

#[export] Instance exact_number : JSNumber xnum := {|
  nadd := Exact.add;
  nsub := Exact.sub;
  nmul := Exact.mul;
  ndiv := Exact.div;
  Math_max := Exact.max;
  Math_min := Exact.min;
  Math_abs := Exact.abs;
  nlt := Exact.ltb;
  nle := Exact.leb;
  nan := XNaN;
  dec := Exact.lit
|}.

(* ================================================================== *)
(** * Identifier generation *)
(* ================================================================== *)

(** [uid()] is [Math.random().toString(36).slice(2, 9)].  The random source
    is an oracle: [rnd k] is the token the [k]-th call of [uid] returns, and
    a computation that draws identifiers threads the number of calls made so
    far. *)
Definition Gen (A : Type) : Type := (nat -> string) -> nat -> A * nat.

#[export] Instance Gen_ret : MRet Gen := fun A (a : A) _ k => (a, k).

#[export] Instance Gen_bind : MBind Gen := fun A B (f : A -> Gen B) (m : Gen A) rnd k =>
  let '(a, k') := m rnd k in f a rnd k'.

Definition uid : Gen string := fun rnd k => (rnd k, S k).

(** The tokens drawn by [n] calls of [uid], the first being call number [k]. *)
Definition draws (rnd : nat -> string) (k n : nat) : list string :=
  map rnd (seq k n).

(** How often an identifier occurs in a list. *)
Definition occ (id : string) (l : list string) : nat :=
  length (List.filter (fun x => String.eqb x id) l).

(* ================================================================== *)
(** * Data model *)
(* ================================================================== *)

Inductive Direction : Type := horizontal | vertical.
Inductive ContentType : Type := text | image.
Inductive Align : Type := left | center | right | justify.
Inductive ObjectFit : Type := cover | contain | fill.

Section Engine.

Context {num : Type} `{JSNumber num}.

Record TextProps : Type := mkTextProps {
  tp_text : option string;
  tp_align : option Align;
  tp_fontSize : option num;
  tp_lineHeight : option num;
  tp_padding : option num;
  tp_bg : option string;
  tp_italic : option bool;
  tp_bold : option bool;
  tp_radius : option num;
  tp_fontFamily : option string;
  tp_letterSpacing : option num;
  tp_wordSpacing : option num
}.

Record ImageProps : Type := mkImageProps {
  ip_url : option string;
  ip_objectFit : option ObjectFit;
  ip_scale : option num;
  ip_offsetX : option num;
  ip_offsetY : option num;
  ip_radius : option num;
  ip_padding : option num;
  ip_bg : option string;
  ip_opacity : option num;
  ip_filter : option string
}.

(** [interface LeafNode]; the [kind] tag is the constructor of [Node]. *)
Record LeafNode : Type := mkLeaf {
  leaf_id : string;
  contentType : ContentType;
  textProps : TextProps;
  imageProps : ImageProps
}.

(** [type Node = SplitNode | LeafNode]. *)
Inductive Node : Type :=
  | Leaf (l : LeafNode)
  | Split (id : string) (direction : Direction)
          (sizes : list num) (children : list Node).

Definition node_id (n : Node) : string :=
  match n with
  | Leaf l => leaf_id l
  | Split id _ _ _ => id
  end.

Definition is_split (n : Node) : bool :=
  match n with Split _ _ _ _ => true | Leaf _ => false end.

Definition node_sizes (n : Node) : list num :=
  match n with Split _ _ sizes _ => sizes | Leaf _ => [] end.

(** ** Arrays of numbers *)

(** [a[i]] read inside an arithmetic expression: a missing element is
    [undefined], which arithmetic turns into NaN. *)
Definition aget (a : list num) (i : nat) : num := default nan (a !! i).

(** [a[i] = v]: in range the slot is overwritten; past the end the array
    grows to length [i + 1].  The slots JavaScript leaves empty in between
    are filled with NaN, the value every arithmetic read of them gives. *)
Definition aset (a : list num) (i : nat) (v : num) : list num :=
  if decide (i < length a) then <[i := v]> a
  else a ++ replicate (i - length a) nan ++ [v].

(** ** Utils *)

(** [const nearlyEqual = (a, b, eps = 1e-6) => Math.abs(a - b) <= eps]. *)
Definition nearlyEqual_eps (a b eps : num) : bool := nle (Math_abs (nsub a b)) eps.
Definition nearlyEqual (a b : num) : bool := nearlyEqual_eps a b (dec 1 6).

Definition nl : string := String (ascii_of_nat 10) EmptyString.

(** A string is truthy when it is not empty. *)
Definition truthy (s : string) : bool :=
  match s with EmptyString => false | String _ _ => true end.

(** [function appendGeneratedLine(existingText: string | undefined, newLine)]. *)
Definition appendGeneratedLine (existingText : option string) (newLine : string) : string :=
  let prev := match existingText with
              | Some s => if truthy s then s else EmptyString
              | None => EmptyString
              end in
  if truthy prev then (prev ++ nl ++ nl ++ newLine)%string else newLine.

Definition DEFAULT_LEAF : Gen LeafNode :=
  id ← uid;
  mret {|
    leaf_id := id;
    contentType := text;
    textProps := {|
      tp_text := Some "Click to edit this segment..."%string;
      tp_align := Some left;
      tp_fontSize := Some (dec 16 0);
      tp_lineHeight := Some (dec 15 1);
      tp_padding := Some (dec 16 0);
      tp_bg := Some "transparent"%string;
      tp_italic := Some false;
      tp_bold := Some false;
      tp_radius := Some (dec 8 0);
      tp_fontFamily := Some "Inter"%string;
      tp_letterSpacing := Some (dec 0 0);
      tp_wordSpacing := Some (dec 0 0) |};
    imageProps := {|
      ip_url := Some ""%string;
      ip_objectFit := Some cover;
      ip_scale := Some (dec 1 0);
      ip_offsetX := Some (dec 0 0);
      ip_offsetY := Some (dec 0 0);
      ip_radius := Some (dec 8 0);
      ip_padding := Some (dec 0 0);
      ip_bg := Some "transparent"%string;
      ip_opacity := Some (dec 1 0);
      ip_filter := Some "none"%string |}
  |}.

(** ** Layout presets *)

Definition layoutTwoColumns : Gen Node :=
  id ← uid; a ← DEFAULT_LEAF; b ← DEFAULT_LEAF;
  mret (Split id horizontal [dec 5 1; dec 5 1] [Leaf a; Leaf b]).

Definition layoutThreeColumns : Gen Node :=
  id ← uid; a ← DEFAULT_LEAF; b ← DEFAULT_LEAF; c ← DEFAULT_LEAF;
  mret (Split id horizontal [dec 33 2; dec 33 2; dec 34 2] [Leaf a; Leaf b; Leaf c]).

(** The inner object literal several presets repeat:
    [{ id: uid(), kind: "split", direction: "horizontal", sizes: [0.5,0.5],
       children: [DEFAULT_LEAF(), DEFAULT_LEAF()] }]. *)
Definition row2 : Gen Node :=
  id ← uid; a ← DEFAULT_LEAF; b ← DEFAULT_LEAF;
  mret (Split id horizontal [dec 5 1; dec 5 1] [Leaf a; Leaf b]).

Definition layoutTwoByTwo : Gen Node :=
  id ← uid; r1 ← row2; r2 ← row2;
  mret (Split id vertical [dec 5 1; dec 5 1] [r1; r2]).

Definition layoutMagazine : Gen Node :=
  id ← uid; a ← DEFAULT_LEAF;
  id2 ← uid; b ← DEFAULT_LEAF; c ← DEFAULT_LEAF;
  mret (Split id horizontal [dec 62 2; dec 38 2]
          [Leaf a; Split id2 vertical [dec 6 1; dec 4 1] [Leaf b; Leaf c]]).

Definition layoutHeaderColumns : Gen Node :=
  id ← uid; a ← DEFAULT_LEAF; r ← row2;
  mret (Split id vertical [dec 25 2; dec 75 2] [Leaf a; r]).

Definition layoutFullBleed : Gen Node :=
  id ← uid; a ← DEFAULT_LEAF;
  mret (Split id horizontal [dec 1 0] [Leaf a]).

Definition layoutComic6Panel : Gen Node :=
  id ← uid; r1 ← row2; r2 ← row2; r3 ← row2;
  mret (Split id vertical [dec 33 2; dec 33 2; dec 34 2] [r1; r2; r3]).

Definition layoutComicSplash : Gen Node :=
  id ← uid; a ← DEFAULT_LEAF;
  id2 ← uid; b ← DEFAULT_LEAF; c ← DEFAULT_LEAF; d ← DEFAULT_LEAF;
  mret (Split id vertical [dec 8 1; dec 2 1]
          [Leaf a; Split id2 horizontal [dec 33 2; dec 33 2; dec 34 2]
                     [Leaf b; Leaf c; Leaf d]]).

Definition layoutPyramid : Gen Node :=
  id ← uid; a ← DEFAULT_LEAF;
  id2 ← uid; b ← DEFAULT_LEAF; c ← DEFAULT_LEAF; d ← DEFAULT_LEAF;
  mret (Split id vertical [dec 3 1; dec 7 1]
          [Leaf a; Split id2 horizontal [dec 25 2; dec 5 1; dec 25 2]
                     [Leaf b; Leaf c; Leaf d]]).

Record Preset : Type := mkPreset { name : string; build : Gen Node }.

Definition PRESETS : list Preset := [
  mkPreset "Two Col" layoutTwoColumns;
  mkPreset "Three Col" layoutThreeColumns;
  mkPreset "2×2" layoutTwoByTwo;
  mkPreset "Magazine" layoutMagazine;
  mkPreset "Header+Cols" layoutHeaderColumns;
  mkPreset "Full" layoutFullBleed;
  mkPreset "6-Panel" layoutComic6Panel;
  mkPreset "Splash" layoutComicSplash;
  mkPreset "Pyramid" layoutPyramid
].

(** ** Tree utils *)

(** [arr.find(Boolean) || null] on an array of [Node | null]: the first
    entry that is a node, [null] when there is none. *)
Definition find_Boolean (arr : list (option Node)) : option Node :=
  match List.find (fun r => match r with Some _ => true | None => false end) arr with
  | Some r => r
  | None => None
  end.

Fixpoint findNode (node : Node) (id : string) : option Node :=
  if String.eqb (node_id node) id then Some node
  else match node with
       | Split _ _ _ children => find_Boolean (map (fun c => findNode c id) children)
       | Leaf _ => None
       end.

Fixpoint updateNode (node : Node) (id : string) (updater : Node -> Node) : Node :=
  if String.eqb (node_id node) id then updater node
  else match node with
       | Split i d s children => Split i d s (map (fun c => updateNode c id updater) children)
       | Leaf _ => node
       end.

(** ** Resizing *)

(** [index] is the position of the divider that is dragged: the caller
    passes the index of [children.map]. *)
Definition applyResize (n : Node) (index : nat) (delta : num) : Node :=
  match n with
  | Leaf _ => n
  | Split id direction sizes0 children =>
      let sizes := sizes0 in
      let min := dec 8 2 in
      let total := nadd (aget sizes index) (aget sizes (index + 1)) in
      let a := nadd (aget sizes index) delta in
      let a := Math_max min (Math_min a (nsub total min)) in
      let sizes := aset sizes index a in
      let sizes := aset sizes (index + 1) (nsub total a) in
      Split id direction sizes children
  end.

(** ** Inspector updaters *)

(** The leaf inspector's content-type select: [n => ({...n, contentType: value})]. *)
Definition setContentType (value : ContentType) (n : LeafNode) : LeafNode :=
  {| leaf_id := leaf_id n;
     contentType := value;
     textProps := textProps n;
     imageProps := imageProps n |}.

(** A leaf updater handed to [updateNode].  The leaf inspector is shown for
    a selected leaf only; on a split the spread copy keeps every field of
    the split. *)
Definition onLeaf (updater : LeafNode -> LeafNode) (n : Node) : Node :=
  match n with
  | Leaf l => Leaf (updater l)
  | Split _ _ _ _ => n
  end.

(** The split inspector's size slider of child [i], moved to [value]. *)
Definition sliderSizes (i : nat) (value : num) (sizes0 : list num) : list num :=
  let sizes := sizes0 in
  let val := Math_min (dec 95 2) (Math_max (dec 5 2) value) in
  let rest := Math_max (dec 5 2) (nsub (dec 1 0) val) in
  let factor := ndiv rest (nsub (dec 1 0) (aget sizes i)) in
  imap (fun idx v => if decide (idx = i) then val
                     else Math_max (dec 5 2) (nmul v factor)) sizes.

(** The updater is typed for split nodes: spreading [n.sizes] of a leaf
    raises a TypeError, rendered as [None]. *)
Definition onSizeChange (i : nat) (value : num) (n : Node) : option Node :=
  match n with
  | Split id direction sizes children =>
      Some (Split id direction (sliderSizes i value sizes) children)
  | Leaf _ => None
  end.

(** ** Specification-level notions *)

(** [sum(sizes)]: the entries added from left to right, starting at 0. *)
Definition sum_sizes (sizes : list num) : num := fold_left nadd sizes (dec 0 0).

(** [clamp(x, lo, hi)] *)
Definition clamp (x lo hi : num) : num := Math_max lo (Math_min x hi).

(** Nodes in depth-first order: a node before its children, the children
    from left to right. *)
Fixpoint preorder (n : Node) : list Node :=
  n :: match n with
       | Split _ _ _ children => flat_map preorder children
       | Leaf _ => []
       end.

Definition ids (n : Node) : list string := map node_id (preorder n).

(** How many nodes of the tree carry an identifier. *)
Definition occurrences (id : string) (n : Node) : nat := occ id (ids n).

(** The subtree at a position, given as the child indices from the root. *)
Fixpoint nodeAt (n : Node) (path : list nat) : option Node :=
  match path with
  | [] => Some n
  | i :: rest =>
      match n with
      | Split _ _ _ children =>
          match children !! i with
          | Some c => nodeAt c rest
          | None => None
          end
      | Leaf _ => None
      end
  end.

(** The tree with the subtree at a position replaced. *)
Fixpoint substAt (n : Node) (path : list nat) (new : Node) : Node :=
  match path with
  | [] => new
  | i :: rest =>
      match n with
      | Split id d s children =>
          Split id d s
            (match children !! i with
             | Some c => <[i := substAt c rest new]> children
             | None => children
             end)
      | Leaf _ => n
      end
  end.

(** Every split has a child, as many sizes as children, and sizes that sum
    to 1 within the tolerance of [nearlyEqual]. *)
Fixpoint well_formed (n : Node) : bool :=
  match n with
  | Leaf _ => true
  | Split _ _ sizes children =>
      (0 <? length children) && (length children =? length sizes)
      && nearlyEqual (sum_sizes sizes) (dec 1 0)
      && forallb well_formed children
  end.

(** [abs(sum(sizes) - 1.0) < 1e-6] *)
Definition sums_to_one (sizes : list num) : bool :=
  nlt (Math_abs (nsub (sum_sizes sizes) (dec 1 0))) (dec 1 6).


(** The number of nodes of a tree. *)
Definition size (n : Node) : nat := length (preorder n).

(** The data-model invariant on a sizes array, for a given floor: every
    entry in [[floor, 1 - floor]] and a sum of 1 within tolerance. *)
Definition sizes_invariant (floor : num) (sizes : list num) : bool :=
  forallb (fun s => nle floor s && nle s (nsub (dec 1 0) floor)) sizes
  && nearlyEqual (sum_sizes sizes) (dec 1 0).


End Engine.

Arguments TextProps : clear implicits.
Arguments ImageProps : clear implicits.
Arguments LeafNode : clear implicits.
Arguments Node : clear implicits.
Arguments Preset : clear implicits.

(* ================================================================== *)
(** * Rational sizes *)
(* ================================================================== *)

(** The sum of a list of rationals. *)
Definition Qsum (qs : list Q) : Q := fold_right Qplus 0%Q qs.

(** [Math.max] and [Math.min] on two rationals. *)
Definition qmax (a b : Q) : Q := if Qle_bool b a then a else b.
Definition qmin (a b : Q) : Q := if Qle_bool a b then a else b.

(** What the slider of child [i] leaves in an array of rationals: [v] in
    slot [i], and every other entry rescaled by [f] and held at the floor
    0.05. *)
Definition rescale (v f : Q) (i : nat) (qs : list Q) : list Q :=
  imap (fun idx q => if decide (idx = i) then v else qmax (5 # 100) (q * f)%Q) qs.

(* ================================================================== *)
(** * The editor around the tree *)
(* ================================================================== *)

Section Editor.

Context {num : Type} `{JSNumber num}.

Definition node_children (n : Node num) : list (Node num) :=
  match n with Split _ _ _ children => children | Leaf _ => [] end.

(** ** Pages *)

(** [updatePage(pageIdx, fn)]: [setPages(prev => prev.map((pg, i) =>
    i === pageIdx ? fn(pg) : pg))].  The undo snapshot taken before it is
    kept apart. *)
Definition updatePage (pageIdx : nat) (fn : Node num -> Node num)
    (pages : list (Node num)) : list (Node num) :=
  imap (fun i pg => if decide (i = pageIdx) then fn pg else pg) pages.

(** ** Dragging a divider *)

(** [SplitView], [onMove]: the fraction of the container the pointer has
    moved since the mouse went down,
    [totalPx > 0 ? deltaPx / totalPx : 0] with [deltaPx = cur - start]. *)
Definition dragFraction (cur start totalPx : num) : num :=
  let deltaPx := nsub cur start in
  if nlt (dec 0 0) totalPx then ndiv deltaPx totalPx else dec 0 0.

(** The [onResize] handler of a page:
    [(id, index, delta) => updatePage(pageIdx, prev =>
       updateNode(prev, id, n => applyResize(n, index, delta)))]. *)
Definition onResize (pageIdx : nat) (id : string) (index : nat) (delta : num)
    (pages : list (Node num)) : list (Node num) :=
  updatePage pageIdx
    (fun prev => updateNode prev id (fun n => applyResize n index delta)) pages.

(** A mouse move while divider [i] of the split [id] is dragged. *)
Definition onMove (pageIdx : nat) (id : string) (i : nat)
    (cur start totalPx : num) (pages : list (Node num)) : list (Node num) :=
  onResize pageIdx id i (dragFraction cur start totalPx) pages.

(** ** Fit to screen *)

(** [fit()]: the zoom at which the two-page spread fits the container,
    [z > 0 ? z : 1] for
    [z = Math.min(clientWidth / spreadW, clientHeight / spreadH)]. *)
Definition fitZoom (aspect pageGap clientWidth clientHeight : num) : num :=
  let pageW := dec 900 0 in
  let pageH := nmul pageW aspect in
  let spreadW := nadd (nmul pageW (dec 2 0)) pageGap in
  let spreadH := pageH in
  let z := Math_min (ndiv clientWidth spreadW) (ndiv clientHeight spreadH) in
  if nlt (dec 0 0) z then z else dec 1 0.

(** ** Generated content *)

(** [text || ""] *)
Definition text_or_empty (t : option string) : string :=
  match t with
  | Some s => if truthy s then s else EmptyString
  | None => EmptyString
  end.

(** The updater of [onGenerateText]:
    [n => n.kind !== "leaf" ? n : {...n, textProps: {...n.textProps,
       text: appendGeneratedLine(n.textProps.text || "", prompt)}}]. *)
Definition generatedTextUpdater (prompt : string) (n : Node num) : Node num :=
  match n with
  | Split _ _ _ _ => n
  | Leaf l =>
      let t := textProps l in
      Leaf {|
        leaf_id := leaf_id l;
        contentType := contentType l;
        textProps := {|
          tp_text := Some (appendGeneratedLine (Some (text_or_empty (tp_text t))) prompt);
          tp_align := tp_align t;
          tp_fontSize := tp_fontSize t;
          tp_lineHeight := tp_lineHeight t;
          tp_padding := tp_padding t;
          tp_bg := tp_bg t;
          tp_italic := tp_italic t;
          tp_bold := tp_bold t;
          tp_radius := tp_radius t;
          tp_fontFamily := tp_fontFamily t;
          tp_letterSpacing := tp_letterSpacing t;
          tp_wordSpacing := tp_wordSpacing t |};
        imageProps := imageProps l |}
  end.

(** The updater of [generateAIImage]:
    [n => n.kind !== "leaf" ? n : {...n, contentType: "image",
       imageProps: {...n.imageProps, url: data.imageURL}}]. *)
Definition generatedImageUpdater (imageURL : string) (n : Node num) : Node num :=
  match n with
  | Split _ _ _ _ => n
  | Leaf l =>
      let p := imageProps l in
      Leaf {|
        leaf_id := leaf_id l;
        contentType := image;
        textProps := textProps l;
        imageProps := {|
          ip_url := Some imageURL;
          ip_objectFit := ip_objectFit p;
          ip_scale := ip_scale p;
          ip_offsetX := ip_offsetX p;
          ip_offsetY := ip_offsetY p;
          ip_radius := ip_radius p;
          ip_padding := ip_padding p;
          ip_bg := ip_bg p;
          ip_opacity := ip_opacity p;
          ip_filter := ip_filter p |} |}
  end.

End Editor.


(* ================================================================== *)
(** * Pages, history, shortcuts and recent projects *)
(* ================================================================== *)

(** [arr.filter((_, i) => keep(i))] *)
Fixpoint filter_index_from {A : Type} (keep : nat -> bool) (k : nat) (l : list A) : list A :=
  match l with
  | [] => []
  | x :: xs =>
      if keep k then x :: filter_index_from keep (S k) xs
      else filter_index_from keep (S k) xs
  end.

Definition filter_index {A : Type} (keep : nat -> bool) (l : list A) : list A :=
  filter_index_from keep 0 l.

(** [[...p.slice(0, i + 1), x, ...p.slice(i + 1)]] *)
Definition insert_after {A : Type} (i : nat) (x : A) (p : list A) : list A :=
  take (i + 1) p ++ x :: drop (i + 1) p.

(** A natural number in a template string. *)
Definition show_nat (n : nat) : string := NilEmpty.string_of_uint (Nat.to_uint n).

(** ** The page list of the spreads editor *)

Section Spreads.

Context {num : Type} `{JSNumber num}.

(** [clone] is [JSON.parse(JSON.stringify(obj))]; the operations below do
    not depend on what it returns. *)
Variable clone : Node num -> Node num.

Record Spreads : Type := mkSpreads {
  sp_pages : list (Node num);
  sp_selectedPage : nat;
  sp_selectedId : string
}.

(** [addPage(tpl = layoutFullBleed)] *)
Definition sp_addPage (tpl : Gen (Node num)) (st : Spreads) : Gen Spreads :=
  pg ← tpl;
  mret {| sp_pages := sp_pages st ++ [pg];
          sp_selectedPage := sp_selectedPage st;
          sp_selectedId := sp_selectedId st |}.

(** [duplicatePage()]: the copy of the selected page goes right after
    it; without a selected page a fresh full-bleed page is copied. *)
Definition sp_duplicatePage (st : Spreads) : Gen Spreads :=
  src ← match sp_pages st !! sp_selectedPage st with
        | Some pg => mret pg
        | None => layoutFullBleed
        end;
  mret {| sp_pages := insert_after (sp_selectedPage st) (clone src) (sp_pages st);
          sp_selectedPage := sp_selectedPage st;
          sp_selectedId := sp_selectedId st |}.

(** [deletePage()] *)
Definition sp_deletePage (st : Spreads) : Spreads :=
  if length (sp_pages st) <=? 1 then st
  else
    let np := filter_index (fun i => negb (i =? sp_selectedPage st)) (sp_pages st) in
    let newSel := Z.max 0 (Z.min (Z.of_nat (length np) - 1)
                                 (Z.of_nat (sp_selectedPage st) - 1)) in
    {| sp_pages := np; sp_selectedPage := Z.to_nat newSel; sp_selectedId := "" |}.

End Spreads.

Arguments Spreads : clear implicits.

(** ** The page list of the builder, with its parallel page infos *)

Record PageInfo : Type := mkPageInfo {
  pi_id : string;
  pi_name : string;
  pi_hidden : bool
}.

Section Document.

(** The pages are not looked into here. *)
Variable Page : Type.

(** [JSON.parse(JSON.stringify(page))] *)
Variable clone : Page -> Page.

Record Document : Type := mkDocument {
  pages : list Page;
  pageInfos : list PageInfo;
  selectedPage : nat
}.

(** [addPage()]: [newPage] is what [getDefaultPreset()] returns and
    [uuid] what [crypto.randomUUID()] returns. *)
Definition addPage (newPage : Page) (uuid : string) (st : Document) : Document :=
  {| pages := pages st ++ [newPage];
     pageInfos := pageInfos st ++
       [{| pi_id := uuid;
           pi_name := "Page " ++ show_nat (length (pageInfos st) + 1);
           pi_hidden := false |}];
     selectedPage := selectedPage st |}.

(** [deletePage(index)] *)
Definition deletePage (index : nat) (st : Document) : Document :=
  if length (pages st) <=? 1 then st
  else
    {| pages := filter_index (fun i => negb (i =? index)) (pages st);
       pageInfos := filter_index (fun i => negb (i =? index)) (pageInfos st);
       selectedPage :=
         if length (pages st) - 1 <=? selectedPage st
         then Z.to_nat (Z.max 0 (Z.of_nat (length (pages st)) - 2))
         else selectedPage st |}.

(** [duplicatePage(index)].  Past the end [prev[index]] is undefined:
    [JSON.parse] and the read of [.name] raise, rendered as [None]. *)
Definition duplicatePage (index : nat) (uuid : string) (st : Document) : option Document :=
  match pages st !! index, pageInfos st !! index with
  | Some pg, Some info =>
      Some {| pages := insert_after index (clone pg) (pages st);
              pageInfos := insert_after index
                {| pi_id := uuid;
                   pi_name := pi_name info ++ " (Copy)";
                   pi_hidden := pi_hidden info |} (pageInfos st);
              selectedPage := selectedPage st |}
  | _, _ => None
  end.

(** [renamePage(index, name)] *)
Definition renamePage (index : nat) (name : string) (st : Document) : Document :=
  {| pages := pages st;
     pageInfos := imap (fun i info =>
                          if decide (i = index)
                          then {| pi_id := pi_id info; pi_name := name;
                                  pi_hidden := pi_hidden info |}
                          else info) (pageInfos st);
     selectedPage := selectedPage st |}.

(** [togglePageHidden(index)] *)
Definition togglePageHidden (index : nat) (st : Document) : Document :=
  {| pages := pages st;
     pageInfos := imap (fun i info =>
                          if decide (i = index)
                          then {| pi_id := pi_id info; pi_name := pi_name info;
                                  pi_hidden := negb (pi_hidden info) |}
                          else info) (pageInfos st);
     selectedPage := selectedPage st |}.

(** The page operations, as steps of the document. *)
Inductive PageOp : Type :=
  | OpAdd (newPage : Page) (uuid : string)
  | OpDelete (index : nat)
  | OpDuplicate (index : nat) (uuid : string)
  | OpRename (index : nat) (name : string)
  | OpToggleHidden (index : nat).

Definition page_step (op : PageOp) (st : Document) : option Document :=
  match op with
  | OpAdd newPage uuid => Some (addPage newPage uuid st)
  | OpDelete index => Some (deletePage index st)
  | OpDuplicate index uuid => duplicatePage index uuid st
  | OpRename index name => Some (renamePage index name st)
  | OpToggleHidden index => Some (togglePageHidden index st)
  end.

(** What the builder relies on: a page info for every page, at least one
    page, and a selected page that exists. *)
Definition document_ok (st : Document) : Prop :=
  length (pageInfos st) = length (pages st)
  /\ 1 <= length (pages st)
  /\ selectedPage st < length (pages st).

End Document.

(** ** Undo and redo *)

Section History.

(** A snapshot is the array of pages. *)
Variable Snapshot : Type.
Variable clone : Snapshot -> Snapshot.

(** [h_pages] is [None] when [pages] has been set to [undefined]. *)
Record HistoryState : Type := mkHistory {
  h_pages : option Snapshot;
  history : list Snapshot;
  historyIndex : nat
}.

(** [saveToHistory(newPages)] *)
Definition saveToHistory (newPages : Snapshot) (st : HistoryState) : HistoryState :=
  let newHistory := take (historyIndex st + 1) (history st) ++ [clone newPages] in
  {| h_pages := h_pages st;
     history := newHistory;
     historyIndex := length newHistory - 1 |}.

(** The page update of [updatePage]: [setPages(prev => { const newPages =
    ...; saveToHistory(newPages); return newPages; })]. *)
Definition commitPages (newPages : Snapshot) (st : HistoryState) : HistoryState :=
  let st' := saveToHistory newPages st in
  {| h_pages := Some newPages; history := history st'; historyIndex := historyIndex st' |}.

Definition undo (st : HistoryState) : HistoryState :=
  if 0 <? historyIndex st then
    {| h_pages := history st !! (historyIndex st - 1);
       history := history st;
       historyIndex := historyIndex st - 1 |}
  else st.

Definition redo (st : HistoryState) : HistoryState :=
  if historyIndex st <? length (history st) - 1 then
    {| h_pages := history st !! (historyIndex st + 1);
       history := history st;
       historyIndex := historyIndex st + 1 |}
  else st.

End History.

(** ** Keyboard shortcuts *)

Inductive Shortcut : Type :=
  | onUndo | onRedo | onZoomIn | onZoomOut | onZoomReset
  | onSplitHorizontal | onSplitVertical | onDuplicate | onDelete
  | onSave | onNewPage | onDeselect.

(** What [handleKeyDown] reads of a [KeyboardEvent]. *)
Record KeyEvent : Type := mkKeyEvent {
  tagName : string;
  isContentEditable : bool;
  ctrlKey : bool;
  metaKey : bool;
  shiftKey : bool;
  key : string
}.

(** [handleKeyDown]: [Some s] when the default is prevented and the
    callback [s] is called, [None] when the event is left alone. *)
Definition handleKeyDown (enabled : bool) (e : KeyEvent) : option Shortcut :=
  if negb enabled then None
  else if (String.eqb (tagName e) "INPUT" || String.eqb (tagName e) "TEXTAREA"
           || isContentEditable e)%bool then None
  else
    let ctrl := (ctrlKey e || metaKey e)%bool in
    let shift := shiftKey e in
    if (ctrl && negb shift && String.eqb (key e) "z")%bool then Some onUndo
    else if ((ctrl && shift && String.eqb (key e) "z")
             || (ctrl && String.eqb (key e) "y"))%bool then Some onRedo
    else if (ctrl && (String.eqb (key e) "=" || String.eqb (key e) "+"))%bool then Some onZoomIn
    else if (ctrl && String.eqb (key e) "-")%bool then Some onZoomOut
    else if (ctrl && String.eqb (key e) "0")%bool then Some onZoomReset
    else if (ctrl && String.eqb (key e) "h")%bool then Some onSplitHorizontal
    else if (ctrl && String.eqb (key e) "j")%bool then Some onSplitVertical
    else if (ctrl && String.eqb (key e) "d")%bool then Some onDuplicate
    else if (String.eqb (key e) "Delete" || String.eqb (key e) "Backspace")%bool
    then Some onDelete
    else if (ctrl && String.eqb (key e) "s")%bool then Some onSave
    else if (ctrl && String.eqb (key e) "n")%bool then Some onNewPage
    else if String.eqb (key e) "Escape" then Some onDeselect
    else None.

(** The zoom callbacks of the builder:
    [z => Math.min(2, z * 1.2)], [z => Math.max(0.1, z / 1.2)] and
    [() => 0.5]. *)
Definition zoomIn {num : Type} `{JSNumber num} (z : num) : num :=
  Math_min (dec 2 0) (nmul z (dec 12 1)).

Definition zoomOut {num : Type} `{JSNumber num} (z : num) : num :=
  Math_max (dec 1 1) (ndiv z (dec 12 1)).

Definition zoomReset {num : Type} `{JSNumber num} : num := dec 5 1.

(** The zoom after a key event: the builder passes
    [setZoom(z => Math.min(2, z * 1.2))], [setZoom(z => Math.max(0.1, z / 1.2))]
    and [setZoom(0.5)] as the three zoom callbacks of [useKeyboardShortcuts]
    (with [enabled: true]); no other callback touches the zoom. *)
Definition zoomAfterKey {num : Type} `{JSNumber num} (e : KeyEvent) (z : num) : num :=
  match handleKeyDown true e with
  | Some onZoomIn => zoomIn z
  | Some onZoomOut => zoomOut z
  | Some onZoomReset => zoomReset
  | _ => z
  end.


(** ** Recent projects *)

Record RecentProject : Type := mkRecentProject {
  rp_id : string;
  rp_name : string;
  rp_lastModified : string;
  rp_pageCount : nat
}.

(** The list [saveProject] stores: the saved project first, the others
    after it, five at most. *)
Definition saveRecent (entry : RecentProject) (prev : list RecentProject)
    : list RecentProject :=
  let existing := List.filter (fun p => negb (String.eqb (rp_id p) (rp_id entry))) prev in
  take 5 (entry :: existing).

(** [handleDeleteRecentProject(projectId)] *)
Definition deleteRecent (projectId : string) (prev : list RecentProject)
    : list RecentProject :=
  List.filter (fun p => negb (String.eqb (rp_id p) projectId)) prev.


(* ================================================================== *)
(** * Sample inputs *)
(* ================================================================== *)

(** A random source for the examples: the first tokens of a run. *)
Definition sample_rnd (k : nat) : string :=
  nth k ["k3j9x1a"; "p0q8w2b"; "m5n7v4c"; "t1r6y3d"; "h2g4u8e"; "z9s0i5f"]%string
      "aaaaaaa"%string.

(** A blank leaf with a given identifier. *)
Definition sample_leaf {num : Type} `{JSNumber num} (id : string) : LeafNode num :=
  fst (DEFAULT_LEAF (fun _ => id) 0).

(** The magazine preset, built from [sample_rnd]. *)
Definition sample_page {num : Type} `{JSNumber num} : Node num :=
  fst (layoutMagazine sample_rnd 0).

(* ================================================================== *)
(** * Tactics *)
(* ================================================================== *)

(** Membership and repetition in a list of closed strings. *)
Ltac solve_not_elem :=
  let Hin := fresh "Hin" in
  intros Hin;
  repeat (apply elem_of_cons in Hin as [Hin | Hin]; [discriminate Hin |]);
  by apply elem_of_nil in Hin.

Ltac solve_NoDup :=
  repeat (apply NoDup_cons; split; [solve_not_elem |]); apply NoDup_nil; exact I.

(* ================================================================== *)
(** * Decimal literals in binary64 *)
(* ================================================================== *)

(** The literals of the source, as Rocq's own binary64 reader gives them. *)
Example dec_0_08 : dec 8 2 = 0.08%float.
Proof. reflexivity. Qed.

Example dec_0_05_0_95 : (dec 5 2, dec 95 2) = (0.05%float, 0.95%float).
Proof. reflexivity. Qed.

Example dec_presets :
  [dec 5 1; dec 33 2; dec 34 2; dec 62 2; dec 38 2; dec 6 1; dec 4 1;
   dec 25 2; dec 75 2; dec 1 0; dec 8 1; dec 2 1; dec 3 1; dec 7 1]
  = [0.5; 0.33; 0.34; 0.62; 0.38; 0.6; 0.4;
     0.25; 0.75; 1; 0.8; 0.2; 0.3; 0.7]%float.
Proof. reflexivity. Qed.

Example dec_eps : dec 1 6 = 1e-6%float.
Proof. reflexivity. Qed.

(** [Math.max] and [Math.min] on the special values of binary64. *)
Example Math_max_min_special :
  Math_max (-0)%float 0%float = 0%float
  /\ Math_min 0%float (-0)%float = (-0)%float
  /\ Math_max 0.08%float PrimFloat.nan = PrimFloat.nan
  /\ Math_min infinity 0.92%float = 0.92%float.
Proof. repeat split; reflexivity. Qed.

(** Past the last divider [applyResize] reads [undefined]: the array grows
    and the touched slots become NaN. *)
Example applyResize_past_last_divider (c1 c2 : Node float) :
  applyResize (Split "root" horizontal [0.5; 0.5]%float [c1; c2]) 1 0.1%float
  = Split "root" horizontal [0.5%float; PrimFloat.nan; PrimFloat.nan] [c1; c2].
Proof. reflexivity. Qed.

(** A resize of the three-column preset in binary64: the sum stays within
    the tolerance. *)
Example applyResize_three_columns_binary64 :
  let n := applyResize (Split "root" horizontal [0.33; 0.33; 0.34]%float []) 1 0.1%float in
  node_sizes n = [0.33; 0.43000000000000005; 0.23999999999999999]%float
  /\ sums_to_one (node_sizes n) = true.
Proof. split; reflexivity. Qed.

(** With two children the slider keeps the sum: the sibling gets the rest. *)
Example slider_two_children :
  sliderSizes 1 0.3%float [0.5; 0.5]%float = [0.7; 0.3]%float
  /\ sum_sizes [0.7; 0.3]%float = 1%float.
Proof. split; reflexivity. Qed.

(* ================================================================== *)
(** * Structural lemmas, for any implementation of numbers *)
(* ================================================================== *)

Section Structure.

Context {num : Type} `{JSNumber num}.

Implicit Types (n root c : Node num) (id : string) (path : list nat).
Implicit Types (sizes : list num) (children : list (Node num)).

(** Induction over a tree whose children sit in a list. *)
Lemma Node_ind' (P : Node num -> Prop) :
  (forall l, P (Leaf l)) ->
  (forall id d sizes children, Forall P children -> P (Split id d sizes children)) ->
  forall n, P n.
Proof.
  intros HL HS. fix IH 1. intros [l | id d sizes children].
  - apply HL.
  - apply HS. induction children as [| c cs IHcs]; constructor; [apply IH | apply IHcs].
Qed.

Lemma ids_Split id d sizes children :
  ids (Split id d sizes children) = id :: flat_map ids children.
Proof.
  unfold ids. simpl. f_equal.
  induction children as [| c cs IHcs]; simpl; [done |].
  by rewrite map_app, IHcs.
Qed.

(** ** [findNode] is a search of the depth-first order *)

Lemma find_app_first {A} (p : A -> bool) (l k : list A) :
  List.find p (l ++ k) = match List.find p l with Some x => Some x | None => List.find p k end.
Proof. induction l as [| x l IHl]; simpl; [done |]. by destruct (p x). Qed.

Lemma findNode_find root id :
  findNode root id = List.find (fun n => String.eqb (node_id n) id) (preorder root).
Proof.
  induction root as [l | i d sizes children IH] using Node_ind'; simpl.
  - by destruct (String.eqb (leaf_id l) id).
  - destruct (String.eqb i id); [done |].
    induction IH as [| c cs Hc _ IHcs]; simpl; [done |].
    rewrite find_app_first, <- Hc. unfold find_Boolean in *. simpl.
    destruct (findNode c id); [done | apply IHcs].
Qed.

Lemma findNode_id root id n : findNode root id = Some n -> node_id n = id.
Proof.
  rewrite findNode_find. intros Hf. apply find_some in Hf as [_ Hf].
  by apply String.eqb_eq.
Qed.

Lemma findNode_None root id : findNode root id = None <-> id ∉ ids root.
Proof.
  rewrite findNode_find, list_elem_of_In. unfold ids. split.
  - intros Hf Hin. apply in_map_iff in Hin as (n & Hn & Hin).
    apply (find_none _ _ Hf) in Hin. apply String.eqb_neq in Hin. done.
  - intros Hnot. destruct (List.find _ _) as [n |] eqn:Hf; [| done].
    apply find_some in Hf as [Hin Hid]. apply String.eqb_eq in Hid.
    exfalso. apply Hnot. apply in_map_iff. eauto.
Qed.

Lemma elem_of_flat_map_ids children i c id :
  children !! i = Some c -> id ∈ ids c -> id ∈ flat_map ids children.
Proof.
  intros Hi Hin. apply list_elem_of_In, in_flat_map. exists c. split.
  - apply list_elem_of_In. by eapply list_elem_of_lookup_2.
  - by apply list_elem_of_In.
Qed.

(** ** [updateNode] *)

Lemma updateNode_miss root id (updater : Node num -> Node num) :
  id ∉ ids root -> updateNode root id updater = root.
Proof.
  induction root as [l | i d sizes children IH] using Node_ind'; intros Hnot.
  - simpl. destruct (String.eqb (leaf_id l) id) eqn:E; [| done].
    apply String.eqb_eq in E. exfalso. apply Hnot. unfold ids. simpl. rewrite E. left.
  - rewrite ids_Split in Hnot. simpl.
    destruct (String.eqb i id) eqn:E.
    { apply String.eqb_eq in E. exfalso. apply Hnot. rewrite E. left. }
    f_equal.
    assert (Hch : id ∉ flat_map ids children) by (intros ?; apply Hnot; by right).
    clear Hnot E. induction IH as [| c cs Hc _ IHcs]; simpl; [done |].
    simpl in Hch. rewrite elem_of_app in Hch. f_equal.
    + apply Hc. tauto.
    + apply IHcs. tauto.
Qed.

Lemma nodeAt_ids root path n : nodeAt root path = Some n -> node_id n ∈ ids root.
Proof.
  revert path. induction root as [l | i d sizes children IH] using Node_ind'; intros path Hat.
  - destruct path; simpl in Hat; [| done]. injection Hat as <-. unfold ids. simpl. left.
  - destruct path as [| j rest]; simpl in Hat.
    + injection Hat as <-. rewrite ids_Split. left.
    + rewrite ids_Split. right.
      destruct (children !! j) as [c |] eqn:Hj; [| done].
      apply (elem_of_flat_map_ids _ j c); [done |].
      rewrite Forall_lookup in IH. by eapply IH.
Qed.

(** ** Counting the nodes that carry an identifier *)

Lemma occ_app id (l k : list string) : occ id (l ++ k) = occ id l + occ id k.
Proof. unfold occ. by rewrite List.filter_app, length_app. Qed.

Lemma occ_pos id (l : list string) : id ∈ l -> 0 < occ id l.
Proof.
  unfold occ. induction l as [| x l IHl]; intros Hin; [by apply elem_of_nil in Hin |].
  simpl. destruct (String.eqb x id) eqn:E; [simpl; lia |].
  apply elem_of_cons in Hin as [-> | Hin]; [by rewrite String.eqb_refl in E | by apply IHl].
Qed.

Lemma occ_zero id (l : list string) : occ id l = 0 <-> id ∉ l.
Proof.
  split.
  - intros Hz Hin. apply (occ_pos id) in Hin. lia.
  - unfold occ. induction l as [| x l IHl]; intros Hnot; [done |].
    apply not_elem_of_cons in Hnot as [Hne Hnot]. simpl.
    destruct (String.eqb x id) eqn:E; [by apply String.eqb_eq in E | by apply IHl].
Qed.

Lemma occurrences_Split id i d sizes children :
  occurrences id (Split i d sizes children)
  = (if String.eqb i id then 1 else 0) + occ id (flat_map ids children).
Proof.
  unfold occurrences. rewrite ids_Split. unfold occ. simpl.
  by destruct (String.eqb i id).
Qed.

(** The occurrences in one child, and in two different children, are among
    those of the whole list of children. *)
Lemma occ_child children i c id :
  children !! i = Some c -> occurrences id c <= occ id (flat_map ids children).
Proof.
  revert i. induction children as [| x xs IHxs]; intros i Hi; [done |].
  simpl. rewrite occ_app. destruct i as [| i]; simpl in Hi.
  - injection Hi as ->. unfold occurrences. lia.
  - apply IHxs in Hi. lia.
Qed.

Lemma occ_two_children children i j c c' id :
  children !! i = Some c -> children !! j = Some c' -> i <> j ->
  occurrences id c + occurrences id c' <= occ id (flat_map ids children).
Proof.
  revert i j. induction children as [| x xs IHxs]; intros i j Hi Hj Hij; [done |].
  simpl. rewrite occ_app.
  destruct i as [| i], j as [| j]; simpl in Hi, Hj; try done.
  - injection Hi as ->. apply (occ_child _ _ _ id) in Hj. unfold occurrences in *. lia.
  - injection Hj as ->. apply (occ_child _ _ _ id) in Hi. unfold occurrences in *. lia.
  - pose proof (IHxs i j Hi Hj ltac:(lia)). lia.
Qed.

(** In a tree without a repeated identifier, each identifier occurs once. *)
Lemma NoDup_occurrences root id : NoDup (ids root) -> id ∈ ids root -> occurrences id root = 1.
Proof.
  unfold occurrences.
  induction (ids root) as [| x l IHl]; intros Hnd Hin; [by apply elem_of_nil in Hin |].
  apply NoDup_cons in Hnd as [Hx Hnd].
  change (x :: l) with ([x] ++ l). rewrite occ_app.
  destruct (String.eqb x id) eqn:E.
  - apply String.eqb_eq in E as ->. apply occ_zero in Hx. rewrite Hx.
    unfold occ. simpl. by rewrite String.eqb_refl.
  - apply elem_of_cons in Hin as [-> | Hin]; [by rewrite String.eqb_refl in E |].
    rewrite (IHl Hnd Hin). unfold occ. simpl. by rewrite E.
Qed.

Lemma updateNode_at root path n (updater : Node num -> Node num) :
  occurrences (node_id n) root <= 1 -> nodeAt root path = Some n ->
  updateNode root (node_id n) updater = substAt root path (updater n).
Proof.
  revert path. induction root as [l | i d sizes children IH] using Node_ind';
    intros path Hocc Hat.
  - destruct path; simpl in Hat; [| done]. injection Hat as <-.
    simpl. by rewrite String.eqb_refl.
  - destruct path as [| j rest]; simpl in Hat.
    { injection Hat as <-. simpl. by rewrite String.eqb_refl. }
    destruct (children !! j) as [c |] eqn:Hj; [| done].
    rewrite occurrences_Split in Hocc.
    assert (Hin : 0 < occurrences (node_id n) c) by (eapply occ_pos, nodeAt_ids; done).
    pose proof (occ_child children j c (node_id n) Hj) as Hc.
    simpl. rewrite Hj.
    destruct (String.eqb i (node_id n)) eqn:E; [lia |].
    f_equal. apply list_eq. intros k. rewrite list_lookup_fmap.
    destruct (decide (k = j)) as [-> | Hkj].
    + rewrite Hj, list_lookup_insert_eq by (by eapply lookup_lt_Some). simpl. f_equal.
      rewrite Forall_lookup in IH. eapply IH; eauto. lia.
    + rewrite list_lookup_insert_ne by done.
      destruct (children !! k) as [c' |] eqn:Hk; simpl; [| done]. f_equal.
      apply updateNode_miss. apply occ_zero.
      pose proof (occ_two_children children j k c c' (node_id n) Hj Hk ltac:(done)).
      unfold occurrences in *. lia.
Qed.

(** A node [findNode] returns sits at some position of the tree. *)
Lemma find_Boolean_lookup children id n :
  find_Boolean (map (fun c => findNode c id) children) = Some n ->
  exists j c, children !! j = Some c /\ findNode c id = Some n.
Proof.
  unfold find_Boolean. induction children as [| c cs IHcs]; simpl; [done |].
  destruct (findNode c id) as [m |] eqn:Hm.
  - intros [= <-]. by exists 0, c.
  - intros Hrest. destruct (IHcs Hrest) as (j & c' & Hj & Hc'). by exists (S j), c'.
Qed.

Lemma findNode_nodeAt root id n :
  findNode root id = Some n -> exists path, nodeAt root path = Some n.
Proof.
  revert n. induction root as [l | i d sizes children IH] using Node_ind'; intros n; simpl.
  - destruct (String.eqb (leaf_id l) id); [| done]. intros [= <-]. by exists [].
  - destruct (String.eqb i id); [intros [= <-]; by exists [] |].
    intros Hf. apply find_Boolean_lookup in Hf as (j & c & Hj & Hc).
    rewrite Forall_lookup in IH. destruct (IH j c Hj n Hc) as [path Hp].
    exists (j :: path). simpl. by rewrite Hj.
Qed.

Lemma findNode_hit n : findNode n (node_id n) = Some n.
Proof. destruct n; simpl; by rewrite String.eqb_refl. Qed.

Lemma findNode_updateNode root id n (updater : Node num -> Node num) :
  findNode root id = Some n -> node_id (updater n) = id ->
  findNode (updateNode root id updater) id = Some (updater n).
Proof.
  intros Hf Hid. revert Hf.
  induction root as [l | i d sizes children IH] using Node_ind'; simpl.
  - destruct (String.eqb (leaf_id l) id) eqn:E; [| done].
    intros [= <-]. subst id. apply findNode_hit.
  - destruct (String.eqb i id) eqn:E.
    { intros [= <-]. subst id. apply findNode_hit. }
    simpl. rewrite E.
    induction IH as [| c cs Hc _ IHcs]; simpl; [done |].
    unfold find_Boolean in *. simpl.
    destruct (findNode c id) as [m |] eqn:Hm.
    + intros [= ->]. by rewrite Hc.
    + intros Hrest. apply findNode_None in Hm.
      rewrite (updateNode_miss c id updater Hm).
      apply findNode_None in Hm. rewrite Hm. by apply IHcs.
Qed.

(** ** Array writes *)

Lemma aget_lookup sizes i v : sizes !! i = Some v -> aget sizes i = v.
Proof. unfold aget. by intros ->. Qed.

Lemma aset_in_range sizes i v : i < length sizes -> aset sizes i v = <[i := v]> sizes.
Proof. intros Hi. unfold aset. by rewrite decide_True. Qed.

Lemma aset_length sizes i v : i < length sizes -> length (aset sizes i v) = length sizes.
Proof. intros Hi. rewrite aset_in_range by done. apply length_insert. Qed.

(** Past the end the array grows to hold the written slot. *)
Lemma aset_grows sizes i v : length sizes <= i -> length (aset sizes i v) = S i.
Proof.
  intros Hi. unfold aset. rewrite decide_False by lia.
  rewrite !length_app, length_replicate. simpl. lia.
Qed.

(** ** [applyResize] on a split, at a divider between two children *)

Lemma applyResize_in_range id d sizes children index delta sA sB :
  sizes !! index = Some sA -> sizes !! (index + 1) = Some sB ->
  let total := nadd sA sB in
  let a := clamp (nadd sA delta) (dec 8 2) (nsub total (dec 8 2)) in
  applyResize (Split id d sizes children) index delta
  = Split id d (<[index + 1 := nsub total a]> (<[index := a]> sizes)) children.
Proof.
  intros HA HB. unfold applyResize, clamp.
  rewrite (aget_lookup _ _ _ HA), (aget_lookup _ _ _ HB).
  apply lookup_lt_Some in HA as HA'. apply lookup_lt_Some in HB as HB'.
  rewrite (aset_in_range sizes index) by done.
  rewrite aset_in_range by (rewrite length_insert; done).
  done.
Qed.


End Structure.

(* ================================================================== *)
(** * Sums of sizes in exact arithmetic *)
(* ================================================================== *)

Section ExactSums.

Local Open Scope Q_scope.

Lemma Qsum_app (l k : list Q) : Qsum (l ++ k) == Qsum l + Qsum k.
Proof. induction l as [| x l IHl]; simpl; [ring | rewrite IHl; ring]. Qed.

Lemma fold_left_Qplus (qs : list Q) (p : Q) : fold_left Qplus qs p == p + Qsum qs.
Proof.
  revert p. induction qs as [| x qs IHqs]; intros p; simpl; [ring |].
  rewrite IHqs. ring.
Qed.

Lemma add_fin_inv (a b : xnum) (q : Q) :
  Exact.add a b = XFin q -> exists p r, a = XFin p /\ b = XFin r.
Proof.
  destruct a as [| s | p], b as [| t | r]; simpl; try done.
  - by destruct (Bool.eqb s t).
  - eauto.
Qed.

(** A finite sum has finite terms only: an infinity or a NaN never goes
    away. *)
Lemma fold_add_fin (l : list xnum) (acc : xnum) (q : Q) :
  fold_left Exact.add l acc = XFin q ->
  exists p qs, acc = XFin p /\ l = map XFin qs.
Proof.
  revert acc. induction l as [| x l IHl]; intros acc; simpl.
  - intros ->. by exists q, [].
  - intros Hs. apply IHl in Hs as (p & qs & Hacc & ->).
    apply add_fin_inv in Hacc as (p' & r & -> & ->).
    by exists p', (r :: qs).
Qed.

Lemma fold_add_map_XFin (qs : list Q) (p : Q) :
  fold_left Exact.add (map XFin qs) (XFin p) = XFin (fold_left Qplus qs p).
Proof. revert p. induction qs as [| x qs IHqs]; intros p; simpl; [done | apply IHqs]. Qed.

Lemma sum_sizes_XFin (qs : list Q) :
  exists s, sum_sizes (map XFin qs) = XFin s /\ s == Qsum qs.
Proof.
  exists (fold_left Qplus qs (0 # 1)). split.
  - apply fold_add_map_XFin.
  - rewrite fold_left_Qplus. ring.
Qed.

Lemma sums_to_one_fin (sizes : list xnum) :
  sums_to_one sizes = true -> exists qs, sizes = map XFin qs.
Proof.
  unfold sums_to_one. destruct (sum_sizes sizes) as [| [] | q] eqn:Hs; try done.
  intros _. apply fold_add_fin in Hs as (p & qs & _ & ->). by exists qs.
Qed.

Lemma Qsum_insert (qs : list Q) (i : nat) (x a : Q) :
  qs !! i = Some x -> Qsum (<[i := a]> qs) == Qsum qs - x + a.
Proof.
  revert i. induction qs as [| y qs IHqs]; intros i Hi; [done |].
  destruct i as [| i]; simpl in *.
  - injection Hi as ->. ring.
  - rewrite (IHqs i Hi). ring.
Qed.

(** The clamp of [applyResize] is a rational whenever the delta is a number. *)
Lemma clamp_fin (x t : Q) (delta : xnum) :
  delta <> XNaN ->
  exists a, clamp (nadd (XFin x) delta) (dec 8 2) (nsub (XFin t) (dec 8 2)) = XFin a.
Proof.
  intros Hd. unfold clamp. cbn [Math_max Math_min nadd nsub dec exact_number].
  unfold Exact.max, Exact.min, Exact.sub, Exact.lit.
  destruct delta as [| s | dq]; [done | |]; cbn [Exact.add Exact.opp Exact.is_nan orb].
  - destruct s; cbn [Exact.ltb negb]; cbn [Exact.is_nan orb]; cbn [Exact.ltb negb].
    + eauto.
    + destruct (negb _); eauto.
  - destruct (Exact.ltb _ (XFin (x + dq))); cbn [Exact.is_nan orb];
      destruct (Exact.ltb _ _); eauto.
Qed.

(** [applyResize] moves size between two neighbours and keeps the sum. *)
Lemma applyResize_Qsum id d (qs : list Q) (children : list (Node xnum)) index delta :
  (index + 1 < length qs)%nat -> delta <> XNaN ->
  exists qs', node_sizes (applyResize (Split id d (map XFin qs) children) index delta)
              = map XFin qs'
              /\ Qsum qs' == Qsum qs.
Proof.
  intros Hi Hd.
  destruct (lookup_lt_is_Some_2 qs index) as [x Hx]; [lia |].
  destruct (lookup_lt_is_Some_2 qs (index + 1)) as [y Hy]; [lia |].
  rewrite (applyResize_in_range id d _ children index delta (XFin x) (XFin y))
    by (rewrite list_lookup_fmap; by (rewrite Hx || rewrite Hy)).
  cbn [node_sizes].
  destruct (clamp_fin x (x + y) delta Hd) as [a Ha].
  change (nadd (XFin x) (XFin y)) with (XFin (x + y)). rewrite Ha.
  change (nsub (XFin (x + y)) (XFin a)) with (XFin (x + y + - a)).
  exists (<[(index + 1)%nat := x + y + - a]> (<[index := a]> qs)). split.
  - by rewrite !list_fmap_insert.
  - rewrite (Qsum_insert _ (index + 1) y), (Qsum_insert _ index x) by
      (done || (rewrite list_lookup_insert_ne by lia; done)).
    ring.
Qed.

Lemma sums_to_one_Qeq (qs qs' : list Q) :
  Qsum qs' == Qsum qs ->
  sums_to_one (map XFin qs) = true -> sums_to_one (map XFin qs') = true.
Proof.
  intros Heq. unfold sums_to_one.
  destruct (sum_sizes_XFin qs) as (s & -> & Hs).
  destruct (sum_sizes_XFin qs') as (s' & -> & Hs').
  cbn [Math_abs nsub nlt dec exact_number].
  unfold Exact.sub, Exact.lit. cbn [Exact.opp Exact.add Exact.abs Exact.ltb].
  assert (E : s' == s) by (rewrite Hs, Hs'; done).
  intros Ht. rewrite <- Ht. f_equal.
  apply eq_true_iff_eq. rewrite !Qle_bool_iff. by rewrite E.
Qed.


End ExactSums.

(* ================================================================== *)
(** * The size slider in exact arithmetic *)
(* ================================================================== *)

Section ExactSlider.

Local Open Scope Q_scope.

Lemma max_XFin (a b : Q) : Math_max (XFin a) (XFin b) = XFin (qmax a b).
Proof.
  cbn [Math_max exact_number]. unfold Exact.max, qmax. cbn [Exact.is_nan orb Exact.ltb].
  by destruct (Qle_bool b a).
Qed.

Lemma min_XFin (a b : Q) : Math_min (XFin a) (XFin b) = XFin (qmin a b).
Proof.
  cbn [Math_min exact_number]. unfold Exact.min, qmin. cbn [Exact.is_nan orb Exact.ltb].
  by destruct (Qle_bool a b).
Qed.

Lemma qmax_lb (a b : Q) : a <= qmax a b /\ b <= qmax a b.
Proof.
  unfold qmax. destruct (Qle_bool b a) eqn:E.
  - apply Qle_bool_iff in E. split; [apply Qle_refl | done].
  - split; [| apply Qle_refl].
    destruct (Qlt_le_dec a b) as [Hlt | Hle]; [by apply Qlt_le_weak |].
    apply Qle_bool_iff in Hle. congruence.
Qed.

Lemma qmax_cases (a b : Q) : (b <= a /\ qmax a b = a) \/ (a < b /\ qmax a b = b).
Proof.
  unfold qmax. destruct (Qle_bool b a) eqn:E.
  - left. by apply Qle_bool_iff in E.
  - right. split; [| done]. apply Qnot_le_lt. intros Hle.
    apply Qle_bool_iff in Hle. congruence.
Qed.

Lemma qmin_cases (a b : Q) : (a <= b /\ qmin a b = a) \/ (b < a /\ qmin a b = b).
Proof.
  unfold qmin. destruct (Qle_bool a b) eqn:E.
  - left. by apply Qle_bool_iff in E.
  - right. split; [| done]. apply Qnot_le_lt. intros Hle.
    apply Qle_bool_iff in Hle. congruence.
Qed.

(** [clamp] is the usual clamp on rationals: for [lo <= hi] the result lies
    in [[lo, hi]] and is [x] itself when [x] does. *)
Lemma clamp_rational (x lo hi : Q) :
  exists c, clamp (XFin x) (XFin lo) (XFin hi) = XFin c
            /\ (lo <= hi -> lo <= c /\ c <= hi)
            /\ (lo <= x -> x <= hi -> c == x).
Proof.
  unfold clamp. rewrite min_XFin, max_XFin. eexists. split; [done |].
  destruct (qmin_cases x hi) as [[H1 ->] | [H1 ->]];
    [destruct (qmax_cases lo x) as [[H2 ->] | [H2 ->]]
    | destruct (qmax_cases lo hi) as [[H2 ->] | [H2 ->]]];
    split; intros; try split; lra.
Qed.


(** The slider value, held in [0.05, 0.95]. *)
Lemma slider_val (value : xnum) :
  value <> XNaN ->
  exists v, Math_min (dec 95 2) (Math_max (dec 5 2) value) = XFin v
            /\ 5 # 100 <= v /\ v <= 95 # 100.
Proof.
  intros Hv. change (dec 95 2) with (XFin (95 # 100)). change (dec 5 2) with (XFin (5 # 100)).
  destruct value as [| [] | q]; [done | | |].
  - exists (5 # 100). by vm_compute.
  - exists (95 # 100). by vm_compute.
  - rewrite max_XFin, min_XFin. eexists. split; [done |].
    destruct (qmax_cases (5 # 100) q) as [[H1 ->] | [H1 ->]].
    + destruct (qmin_cases (95 # 100) (5 # 100)) as [[H2 ->] | [H2 ->]]; split; lra.
    + destruct (qmin_cases (95 # 100) q) as [[H2 ->] | [H2 ->]]; split; lra.
Qed.

Lemma sliderSizes_rational (qs : list Q) (i : nat) (s : Q) (value : xnum) :
  qs !! i = Some s -> s < 1 -> value <> XNaN ->
  exists v r,
    Math_min (dec 95 2) (Math_max (dec 5 2) value) = XFin v
    /\ (5 # 100 <= v /\ v <= 95 # 100) /\ r == 1 - v
    /\ sliderSizes i value (map XFin qs) = map XFin (rescale v (r / (1 + - s)) i qs).
Proof.
  intros Hi Hs Hv. destruct (slider_val value Hv) as (v & Ev & Hv1 & Hv2).
  exists v, (qmax (5 # 100) (1 + - v)). repeat split; try done.
  - destruct (qmax_cases (5 # 100) (1 + - v)) as [[H1 ->] | [H1 ->]]; lra.
  - unfold sliderSizes. rewrite Ev.
    rewrite (aget_lookup _ _ (XFin s)) by (by rewrite list_lookup_fmap, Hi).
    change (dec 5 2) with (XFin (5 # 100)). change (dec 1 0) with (XFin 1).
    change (nsub (XFin 1) (XFin v)) with (XFin (1 + - v)). rewrite max_XFin.
    change (nsub (XFin 1) (XFin s)) with (XFin (1 + - s)).
    set (r := qmax (5 # 100) (1 + - v)).
    assert (Hdiv : ndiv (XFin r) (XFin (1 + - s)) = XFin (r / (1 + - s))).
    { cbn [ndiv exact_number]. unfold Exact.div, Exact.is_zero.
      destruct (Qeq_bool (1 + - s) 0) eqn:E; [| done].
      apply Qeq_bool_iff in E. lra. }
    rewrite Hdiv. unfold rescale.
    change (map XFin qs) with (XFin <$> qs).
    change (map XFin (imap ?f qs)) with (XFin <$> imap f qs).
    rewrite imap_fmap, fmap_imap. apply imap_ext. intros idx q _. simpl.
    destruct (decide (idx = i)); [done |].
    change (nmul (XFin q) (XFin (r / (1 + - s)))) with (XFin (q * (r / (1 + - s)))).
    by rewrite max_XFin.
Qed.

Lemma rescale_middle (v f : Q) (i : nat) (qs : list Q) (s : Q) :
  qs !! i = Some s ->
  rescale v f i qs
  = map (fun q => qmax (5 # 100) (q * f)) (take i qs)
    ++ v :: map (fun q => qmax (5 # 100) (q * f)) (drop (S i) qs).
Proof.
  intros Hi. unfold rescale.
  assert (Hlen : length (take i qs) = i).
  { apply length_take_le. apply lookup_lt_Some in Hi. lia. }
  rewrite <- (take_drop_middle qs i s Hi) at 1.
  rewrite imap_app, imap_cons, Hlen. f_equal; [| f_equal].
  - rewrite <- imap_const. apply imap_ext. intros j q Hj. simpl.
    apply lookup_lt_Some in Hj. rewrite Hlen in Hj. rewrite decide_False by lia. done.
  - rewrite decide_True by lia. done.
  - rewrite <- imap_const. apply imap_ext. intros j q _. simpl.
    rewrite decide_False by lia. done.
Qed.

Lemma Qsum_nonneg (l : list Q) : Forall (fun q => 0 <= q) l -> 0 <= Qsum l.
Proof. induction 1 as [| q l Hq _ IHl]; simpl; lra. Qed.

Lemma Qsum_ge_elem (l : list Q) (q : Q) :
  Forall (fun q => 0 <= q) l -> q ∈ l -> q <= Qsum l.
Proof.
  induction 1 as [| x l Hx Hl IHl]; intros Hin; [by apply elem_of_nil in Hin |].
  apply Qsum_nonneg in Hl. simpl.
  apply elem_of_cons in Hin as [-> | Hin]; [lra | apply IHl in Hin; lra].
Qed.

(** The rescaled array, for sizes that are not negative and sum to 1. *)
Lemma rescale_props (v r s : Q) (i : nat) (qs : list Q) :
  Forall (fun q => 0 <= q) qs -> Qsum qs == 1 -> qs !! i = Some s -> s < 1 ->
  5 # 100 <= v /\ v <= 95 # 100 -> r == 1 - v ->
  let qs' := rescale v (r / (1 + - s)) i qs in
  length qs' = length qs
  /\ qs' !! i = Some v
  /\ Forall (fun q => 5 # 100 <= q /\ q <= 95 # 100) qs'
  /\ 1 <= Qsum qs'
  /\ ((forall j q', j <> i -> qs' !! j = Some q' -> 5 # 100 < q') -> Qsum qs' == 1).
Proof.
  intros Hnn Hsum Hi Hs [Hv1 Hv2] Hr qs'.
  split; [apply length_imap |].
  split; [unfold qs', rescale; rewrite list_lookup_imap, Hi; simpl; by rewrite decide_True |].
  assert (Hj : forall j q, j <> i -> qs !! j = Some q ->
                 qs' !! j = Some (qmax (5 # 100) (q * (r / (1 + - s))))).
  { intros j q Hji Hq. unfold qs', rescale. rewrite list_lookup_imap, Hq. simpl.
    by rewrite decide_False. }
  unfold qs' in *. clear qs'. rewrite (rescale_middle _ _ _ _ _ Hi) in *.
  set (f := r / (1 + - s)) in *. set (g := fun q => qmax (5 # 100) (q * f)) in *.
  assert (Hf0 : 0 <= f).
  { unfold f, Qdiv. apply Qmult_le_0_compat; [lra |].
    apply Qlt_le_weak, Qinv_lt_0_compat. lra. }
  assert (Hcf : (1 + - s) * f == r) by (unfold f; field; lra).
  pose proof (Forall_take _ i _ Hnn) as Hpre.
  pose proof (Forall_drop _ (S i) _ Hnn) as Hpost.
  assert (Hsum' : Qsum (take i qs) + (s + Qsum (drop (S i) qs)) == 1).
  { rewrite <- Hsum. rewrite <- (take_drop_middle qs i s Hi) at 3.
    rewrite Qsum_app. simpl. ring. }
  pose proof (Qsum_nonneg _ Hpre) as Hpre0. pose proof (Qsum_nonneg _ Hpost) as Hpost0.
  assert (Hg : forall q, 0 <= q -> q <= 1 + - s -> 5 # 100 <= g q /\ g q <= 95 # 100).
  { intros q Hq0 Hq1. assert (q * f <= (1 + - s) * f) by (by apply Qmult_le_compat_r).
    unfold g. destruct (qmax_cases (5 # 100) (q * f)) as [[H1 ->] | [H1 ->]]; lra. }
  assert (Hge : forall l, Qsum l * f <= Qsum (map g l)).
  { induction l as [| q l IHl]; simpl; [lra |].
    destruct (qmax_lb (5 # 100) (q * f)) as [_ H2]. fold (g q) in H2.
    assert (E : (q + Qsum l) * f == q * f + Qsum l * f) by ring.
    rewrite E. lra. }
  assert (Heq : forall l, Forall (fun q => 5 # 100 < g q) l -> Qsum (map g l) == Qsum l * f).
  { induction 1 as [| q l Hq _ IHl]; simpl; [ring |].
    rewrite IHl. unfold g in Hq |- *.
    destruct (qmax_cases (5 # 100) (q * f)) as [[H1 E] | [H1 E]]; rewrite E in *; [lra | ring]. }
  split; [| split].
  - apply Forall_app. split; [| constructor; [done |]].
    + apply Forall_fmap, Forall_forall. intros q Hq. simpl.
      pose proof (Qsum_ge_elem _ _ Hpre Hq). rewrite Forall_forall in Hpre.
      apply Hg; [by apply Hpre | lra].
    + apply Forall_fmap, Forall_forall. intros q Hq. simpl.
      pose proof (Qsum_ge_elem _ _ Hpost Hq). rewrite Forall_forall in Hpost.
      apply Hg; [by apply Hpost | lra].
  - rewrite Qsum_app. simpl.
    pose proof (Hge (take i qs)). pose proof (Hge (drop (S i) qs)).
    assert ((Qsum (take i qs) + Qsum (drop (S i) qs)) * f == r).
    { rewrite <- Hcf.
      assert (E : 1 + - s == Qsum (take i qs) + Qsum (drop (S i) qs)) by lra.
      by rewrite E. }
    assert (E : (Qsum (take i qs) + Qsum (drop (S i) qs)) * f
                == Qsum (take i qs) * f + Qsum (drop (S i) qs) * f) by ring.
    rewrite E in *. lra.
  - intros Hfloor. rewrite Qsum_app. simpl.
    assert (Hlen : length (take i qs) = i).
    { apply length_take_le. apply lookup_lt_Some in Hi. lia. }
    rewrite (Heq (take i qs)), (Heq (drop (S i) qs)).
    + assert (E1 : Qsum (take i qs) * f + (v + Qsum (drop (S i) qs) * f)
                   == (Qsum (take i qs) + Qsum (drop (S i) qs)) * f + v) by ring.
      assert (E2 : Qsum (take i qs) + Qsum (drop (S i) qs) == 1 + - s) by lra.
      rewrite E1, E2, Hcf. lra.
    + apply Forall_lookup. intros k q Hk. rewrite lookup_drop in Hk.
      apply (Hfloor (S i + k)%nat); [lia |]. apply Hj; [lia | done].
    + apply Forall_lookup. intros k q Hk.
      assert (k < i)%nat by (apply lookup_lt_Some in Hk; lia).
      rewrite lookup_take_lt in Hk by done.
      apply (Hfloor k); [lia |]. apply Hj; [lia | done].
Qed.

End ExactSlider.

(* ================================================================== *)
(** * The properties of the specification *)
(* ================================================================== *)

(** C1.  On a split with as many sizes as children, at a boundary
    [index <= children.length - 2], [applyResize] returns the same split
    (same id, direction and children) whose sizes differ in two slots only:
    [sizes[index]] becomes [clamp(sizes[index] + delta, 0.08, total - 0.08)]
    and [sizes[index+1]] becomes [total - newSizeA], for
    [total = sizes[index] + sizes[index+1]] before the change.  This holds
    whatever the sizes sum to. *)
Theorem applyResize_boundary {num : Type} `{JSNumber num}
    (id : string) (d : Direction) (sizes : list num) (children : list (Node num))
    (index : nat) (delta : num) :
  length sizes = length children ->
  index + 2 <= length children ->
  exists sizeA sizeB,
    sizes !! index = Some sizeA /\ sizes !! (index + 1) = Some sizeB /\
    let total := nadd sizeA sizeB in
    let newSizeA := clamp (nadd sizeA delta) (dec 8 2) (nsub total (dec 8 2)) in
    let n' := applyResize (Split id d sizes children) index delta in
    n' = Split id d (node_sizes n') children
    /\ length (node_sizes n') = length sizes
    /\ node_sizes n' !! index = Some newSizeA
    /\ node_sizes n' !! (index + 1) = Some (nsub total newSizeA)
    /\ forall j, j <> index -> j <> index + 1 -> node_sizes n' !! j = sizes !! j.
Proof.
  intros Hlen Hidx.
  destruct (lookup_lt_is_Some_2 sizes index) as [sizeA HA]; [lia |].
  destruct (lookup_lt_is_Some_2 sizes (index + 1)) as [sizeB HB]; [lia |].
  exists sizeA, sizeB. split; [done |]. split; [done |]. cbv zeta.
  rewrite (applyResize_in_range id d sizes children index delta sizeA sizeB HA HB).
  cbn [node_sizes].
  apply lookup_lt_Some in HA as HA'. apply lookup_lt_Some in HB as HB'.
  repeat split.
  - by rewrite !length_insert.
  - rewrite list_lookup_insert_ne by lia. by rewrite list_lookup_insert_eq.
  - rewrite list_lookup_insert_eq; [done | by rewrite length_insert].
  - intros j Hj1 Hj2. by rewrite !list_lookup_insert_ne.
Qed.

Lemma applyResize_boundary_witness :
  let sizes := [0.25; 0.5; 0.25]%float in
  let children := [Leaf (sample_leaf "a"); Leaf (sample_leaf "b"); Leaf (sample_leaf "c")] in
  length sizes = length children /\ 0 + 2 <= length children /\
  applyResize (Split "root" horizontal sizes children) 0 0.125%float
  = Split "root" horizontal [0.375; 0.375; 0.25]%float children.
Proof.
  cbv zeta. split; [reflexivity |]. split; [simpl; lia |].
  destruct (applyResize_boundary "root" horizontal [0.25; 0.5; 0.25]%float
              [Leaf (sample_leaf "a"); Leaf (sample_leaf "b"); Leaf (sample_leaf "c")]
              0 0.125%float eq_refl ltac:(simpl; lia))
    as (sizeA & sizeB & _ & _ & Hn & _).
  rewrite Hn. reflexivity.
Defined.

(** C2.  [updateNode] is a total function (it has no error result).  When
    no node of the tree has the identifier it returns the tree unchanged;
    when exactly one node has it, that is the node [findNode] returns, and
    the result is the tree with the node at its position replaced by the
    updater's result on it. *)
Theorem updateNode_replaces {num : Type} `{JSNumber num}
    (root : Node num) (id : string) (updater : Node num -> Node num) :
  (id ∉ ids root -> updateNode root id updater = root)
  /\ (occurrences id root = 1 ->
      exists path n,
        findNode root id = Some n /\ nodeAt root path = Some n
        /\ updateNode root id updater = substAt root path (updater n)).
Proof.
  split; [apply updateNode_miss |].
  intros Hocc. destruct (findNode root id) as [n |] eqn:Hf.
  - pose proof (findNode_id _ _ _ Hf) as Hid.
    destruct (findNode_nodeAt _ _ _ Hf) as [path Hp].
    exists path, n. split; [done |]. split; [done |].
    subst id. apply updateNode_at; [lia | done].
  - apply findNode_None, occ_zero in Hf. unfold occurrences in Hocc. lia.
Qed.

Lemma updateNode_replaces_witness :
  let root : Node float := sample_page in
  let new := Leaf (sample_leaf "fresh") in
  (("nonexistent-id"%string ∉ ids root)
   /\ updateNode root "nonexistent-id" (fun _ => new) = root)
  /\ (occurrences "t1r6y3d" root = 1
      /\ exists path n,
           findNode root "t1r6y3d" = Some n /\ nodeAt root path = Some n
           /\ updateNode root "t1r6y3d" (fun _ => new) = substAt root path new).
Proof.
  cbv zeta.
  assert (Hnot : "nonexistent-id"%string ∉ ids (sample_page (num := float))).
  { vm_compute. solve_not_elem. }
  assert (Hocc : occurrences "t1r6y3d" (sample_page (num := float)) = 1) by reflexivity.
  destruct (updateNode_replaces sample_page "nonexistent-id"
              (fun _ => Leaf (sample_leaf (num := float) "fresh"))) as [Hmiss _].
  destruct (updateNode_replaces sample_page "t1r6y3d"
              (fun _ => Leaf (sample_leaf (num := float) "fresh"))) as [_ Hhit].
  split; [split; [exact Hnot | exact (Hmiss Hnot)] |].
  split; [exact Hocc | exact (Hhit Hocc)].
Defined.

(** The replaced position in the sample page: the first leaf of the inner
    split. *)
Example updateNode_sample_page :
  let root : Node float := sample_page in
  let new := Leaf (sample_leaf "fresh") in
  updateNode root "t1r6y3d" (fun _ => new) = substAt root [1; 0] new.
Proof. reflexivity. Qed.






(** C5.  In binary64, on a two-child split with sizes [0.5, 0.5],
    [applyResize(node, 0, -0.6)] returns the sizes [0.08, 0.92], both
    positive. *)
Theorem applyResize_clamps_at_floor
    (id : string) (d : Direction) (c1 c2 : Node float) :
  applyResize (Split id d [0.5; 0.5]%float [c1; c2]) 0 (-0.6)%float
  = Split id d [0.08; 0.92]%float [c1; c2]
  /\ PrimFloat.ltb 0 0.08 = true /\ PrimFloat.ltb 0 0.92 = true.
Proof. repeat split; reflexivity. Qed.

(** C6.  [findNode] returns the first node with the identifier in
    depth-first order (a node before its children, children from left to
    right), and [null] exactly when no node of the tree has it. *)
Theorem findNode_depth_first {num : Type} `{JSNumber num} (root : Node num) (id : string) :
  findNode root id = List.find (fun n => String.eqb (node_id n) id) (preorder root)
  /\ (findNode root id = None <-> id ∉ ids root).
Proof. split; [apply findNode_find | apply findNode_None]. Qed.



(** C8.  The content-type select of the leaf inspector, applied through
    [updateNode] to the selected leaf, changes the leaf's [contentType] and
    leaves its [textProps], its [imageProps] and its identifier as they
    were. *)
Theorem contentType_switch_keeps_props {num : Type} `{JSNumber num}
    (root : Node num) (l : LeafNode num) (value : ContentType) :
  findNode root (leaf_id l) = Some (Leaf l) ->
  exists l',
    findNode (updateNode root (leaf_id l) (onLeaf (setContentType value))) (leaf_id l)
    = Some (Leaf l')
    /\ l' = setContentType value l
    /\ contentType l' = value
    /\ textProps l' = textProps l
    /\ imageProps l' = imageProps l
    /\ leaf_id l' = leaf_id l.
Proof.
  intros Hf. exists (setContentType value l). repeat split.
  by apply (findNode_updateNode root (leaf_id l) (Leaf l) (onLeaf (setContentType value))).
Qed.

Lemma contentType_switch_keeps_props_witness :
  let root : Node float := sample_page in
  let l := sample_leaf "t1r6y3d" in
  findNode root (leaf_id l) = Some (Leaf l)
  /\ exists l',
       findNode (updateNode root "t1r6y3d" (onLeaf (setContentType image))) "t1r6y3d"
       = Some (Leaf l')
       /\ contentType l' = image
       /\ tp_text (textProps l') = Some "Click to edit this segment..."%string
       /\ imageProps l' = imageProps l.
Proof.
  cbv zeta.
  assert (Hf : findNode (sample_page (num := float)) (leaf_id (sample_leaf "t1r6y3d"))
               = Some (Leaf (sample_leaf "t1r6y3d"))) by reflexivity.
  split; [exact Hf |].
  destruct (contentType_switch_keeps_props sample_page (sample_leaf "t1r6y3d") image Hf)
    as (l' & Hfind & -> & Hc & Ht & Hi & _).
  exists (setContentType image (sample_leaf "t1r6y3d")).
  split; [exact Hfind |]. split; [exact Hc |]. split; [reflexivity | exact Hi].
Defined.

(** C9.  On a leaf, [applyResize] returns the leaf itself, for every index
    and delta. *)
Theorem applyResize_leaf {num : Type} `{JSNumber num}
    (l : LeafNode num) (index : nat) (delta : num) :
  applyResize (Leaf l) index delta = Leaf l.
Proof. reflexivity. Qed.

(** C10.  [appendGeneratedLine] returns the new line when the existing text
    is undefined or empty, and otherwise the existing text, one blank line
    (two newline characters) and the new line. *)
Theorem appendGeneratedLine_spec (existingText : option string) (newLine : string) :
  appendGeneratedLine existingText newLine
  = match existingText with
    | None | Some EmptyString => newLine
    | Some prev => (prev ++ String "010" (String "010" newLine))%string
    end.
Proof.
  destruct existingText as [[| c prev] |]; reflexivity.
Qed.

(* ================================================================== *)
(** * Further properties of the tree operations *)
(* ================================================================== *)

Section TreeEdits.

Context {num : Type} `{JSNumber num}.

Implicit Types (n root c : Node num) (id : string).
Implicit Types (sizes : list num) (children : list (Node num)).

Lemma preorder_self root : root ∈ preorder root.
Proof. destruct root; simpl; left. Qed.

Lemma preorder_child i d sizes children c n :
  c ∈ children -> n ∈ preorder c -> n ∈ preorder (Split i d sizes children).
Proof.
  intros Hc Hn. simpl. right. apply list_elem_of_In, in_flat_map.
  exists c. split; by apply list_elem_of_In.
Qed.

Lemma updateNode_hit n id (updater : Node num -> Node num) :
  node_id n = id -> updateNode n id updater = updater n.
Proof. intros <-. destruct n; simpl; by rewrite String.eqb_refl. Qed.

Lemma updateNode_Split_ne i d sizes children id (updater : Node num -> Node num) :
  String.eqb i id = false ->
  updateNode (Split i d sizes children) id updater
  = Split i d sizes (map (fun c => updateNode c id updater) children).
Proof. intros E. simpl. by rewrite E. Qed.

(** An updater that returns the nodes it is given leaves the tree as it
    is. *)
Lemma updateNode_fixed root id (updater : Node num -> Node num) :
  (forall n, n ∈ preorder root -> node_id n = id -> updater n = n) ->
  updateNode root id updater = root.
Proof.
  induction root as [l | i d sizes children IH] using Node_ind'; intros Hfix.
  - simpl. destruct (String.eqb (leaf_id l) id) eqn:E; [| done].
    apply String.eqb_eq in E. apply Hfix; [apply preorder_self | done].
  - destruct (String.eqb i id) eqn:E.
    { apply String.eqb_eq in E. rewrite updateNode_hit by done.
      apply Hfix; [apply preorder_self | done]. }
    rewrite updateNode_Split_ne by done. f_equal.
    rewrite <- (map_id children) at 2. apply map_ext_in. intros c Hc.
    apply list_elem_of_In in Hc. rewrite Forall_forall in IH. apply IH; [done |].
    intros n Hn. apply Hfix. by eapply preorder_child.
Qed.

(** Two updates of the same node are one update by the composed updater. *)
Lemma updateNode_updateNode root id (f g : Node num -> Node num) :
  (forall n, node_id n = id -> node_id (f n) = id) ->
  updateNode (updateNode root id f) id g = updateNode root id (fun n => g (f n)).
Proof.
  intros Hid.
  induction root as [l | i d sizes children IH] using Node_ind'.
  - simpl. destruct (String.eqb (leaf_id l) id) eqn:E.
    + apply String.eqb_eq in E. apply updateNode_hit. by apply Hid.
    + simpl. by rewrite E.
  - destruct (String.eqb i id) eqn:E.
    + apply String.eqb_eq in E. rewrite !(updateNode_hit (Split i d sizes children)) by done.
      apply updateNode_hit. by apply Hid.
    + rewrite !updateNode_Split_ne by done. f_equal.
      rewrite map_map. apply map_ext_in. intros c Hc.
      apply list_elem_of_In in Hc. rewrite Forall_forall in IH. by apply IH.
Qed.

(** An updater that keeps the identifiers of the subtree it is given keeps
    those of the whole tree. *)
Lemma updateNode_ids root id (updater : Node num -> Node num) :
  (forall n, node_id n = id -> ids (updater n) = ids n) ->
  ids (updateNode root id updater) = ids root.
Proof.
  intros Hids.
  induction root as [l | i d sizes children IH] using Node_ind'.
  - simpl. destruct (String.eqb (leaf_id l) id) eqn:E; [| done].
    apply String.eqb_eq in E. by apply Hids.
  - destruct (String.eqb i id) eqn:E.
    { apply String.eqb_eq in E. rewrite updateNode_hit by done. by apply Hids. }
    rewrite updateNode_Split_ne by done. rewrite !ids_Split. f_equal.
    induction IH as [| c cs Hc _ IHcs]; simpl; [done |]. by rewrite Hc, IHcs.
Qed.

Lemma applyResize_ids n (index : nat) (delta : num) : ids (applyResize n index delta) = ids n.
Proof. destruct n; [done |]. unfold applyResize. by rewrite !ids_Split. Qed.

(** The nodes of a well-formed tree are well-formed. *)
Lemma well_formed_preorder root n :
  well_formed root = true -> n ∈ preorder root -> well_formed n = true.
Proof.
  induction root as [l | i d sizes children IH] using Node_ind'; intros Hwf Hn.
  - simpl in Hn. apply elem_of_cons in Hn as [-> | Hn]; [done | by apply elem_of_nil in Hn].
  - simpl in Hn. apply elem_of_cons in Hn as [-> | Hn]; [done |].
    apply list_elem_of_In, in_flat_map in Hn as (c & Hc & Hn).
    simpl in Hwf. rewrite !andb_true_iff in Hwf. destruct Hwf as (_ & Hch).
    rewrite forallb_forall in Hch. rewrite Forall_forall in IH.
    apply (IH c); [by apply list_elem_of_In | by apply Hch | by apply list_elem_of_In].
Qed.

(** [updateNode] keeps a tree well-formed when the updater keeps the
    nodes it reaches well-formed. *)
Lemma updateNode_well_formed root id (updater : Node num -> Node num) :
  well_formed root = true ->
  (forall n, n ∈ preorder root -> node_id n = id ->
             well_formed n = true -> well_formed (updater n) = true) ->
  well_formed (updateNode root id updater) = true.
Proof.
  induction root as [l | i d sizes children IH] using Node_ind'; intros Hwf Hup.
  - simpl. destruct (String.eqb (leaf_id l) id) eqn:E; [| done].
    apply String.eqb_eq in E. apply Hup; [apply preorder_self | done | done].
  - destruct (String.eqb i id) eqn:E.
    { apply String.eqb_eq in E. rewrite updateNode_hit by done.
      apply Hup; [apply preorder_self | done | done]. }
    rewrite updateNode_Split_ne by done.
    simpl in Hwf |- *. rewrite !andb_true_iff in Hwf |- *.
    destruct Hwf as (((Hpos & Hlen) & Hsum) & Hch).
    rewrite length_map. repeat split; try done.
    rewrite forallb_forall in Hch |- *. intros c' Hc'.
    apply in_map_iff in Hc' as (c & <- & Hc).
    rewrite Forall_forall in IH. apply IH.
    + by apply list_elem_of_In.
    + by apply Hch.
    + intros n Hn. apply Hup. eapply preorder_child; [by apply list_elem_of_In | done].
Qed.

(** [updatePage] reaches one page only. *)
Lemma updatePage_lookup (pageIdx : nat) (fn : Node num -> Node num)
    (pages : list (Node num)) (i : nat) :
  updatePage pageIdx fn pages !! i
  = (if decide (i = pageIdx) then fn <$> pages !! i else pages !! i).
Proof.
  unfold updatePage. rewrite list_lookup_imap.
  destruct (decide (i = pageIdx)); [done |]. by destruct (pages !! i).
Qed.

End TreeEdits.

(* ================================================================== *)
(** * Resizing in exact arithmetic *)
(* ================================================================== *)

Section ExactResize.

Local Open Scope Q_scope.

(** The clamp of a number that is not NaN is a rational, inside the
    bounds when they are in order. *)
Lemma clamp_bounds (v : xnum) (lo hi : Q) :
  v <> XNaN ->
  exists c, clamp v (XFin lo) (XFin hi) = XFin c /\ (lo <= hi -> lo <= c /\ c <= hi).
Proof.
  intros Hv. destruct v as [| [] | x]; [done | | |].
  - exists lo. split; [| intros; lra].
    unfold clamp. cbn [Math_max Math_min exact_number].
    unfold Exact.max, Exact.min. cbn [Exact.is_nan orb Exact.ltb negb]. done.
  - exists (qmax lo hi). split.
    + unfold clamp. by rewrite <- max_XFin.
    + intros Hle. destruct (qmax_cases lo hi) as [[H1 ->] | [H1 ->]]; lra.
  - destruct (clamp_rational x lo hi) as (c & Hc & Hb & _). by exists c.
Qed.

(** [applyResize] on rational sizes, at a divider between two children. *)
Lemma applyResize_rational id d (qs : list Q) (children : list (Node xnum))
    (index : nat) (delta : xnum) (x y : Q) :
  qs !! index = Some x -> qs !! (index + 1)%nat = Some y -> delta <> XNaN ->
  exists a,
    clamp (nadd (XFin x) delta) (XFin (8 # 100)) (XFin (x + y + - (8 # 100))) = XFin a
    /\ applyResize (Split id d (map XFin qs) children) index delta
       = Split id d (map XFin (<[(index + 1)%nat := x + y + - a]> (<[index := a]> qs))) children.
Proof.
  intros Hx Hy Hd.
  assert (Hv : nadd (XFin x) delta <> XNaN) by (by destruct delta).
  destruct (clamp_bounds _ (8 # 100) (x + y + - (8 # 100)) Hv) as (a & Ha & _).
  exists a. split; [done |].
  rewrite (applyResize_in_range id d _ children index delta (XFin x) (XFin y))
    by (rewrite list_lookup_fmap; by (rewrite Hx || rewrite Hy)).
  cbv zeta. change (dec 8 2) with (XFin (8 # 100)).
  change (nadd (XFin x) (XFin y)) with (XFin (x + y)).
  change (nsub (XFin (x + y)) (XFin (8 # 100))) with (XFin (x + y + - (8 # 100))).
  rewrite Ha. change (nsub (XFin (x + y)) (XFin a)) with (XFin (x + y + - a)).
  by rewrite !list_fmap_insert.
Qed.

Lemma nearlyEqual_fin (sizes : list xnum) :
  nearlyEqual (sum_sizes sizes) (dec 1 0) = true -> exists qs, sizes = map XFin qs.
Proof.
  unfold nearlyEqual, nearlyEqual_eps.
  destruct (sum_sizes sizes) as [| [] | q] eqn:Hs; try done.
  intros _. apply fold_add_fin in Hs as (p & qs & _ & ->). by exists qs.
Qed.

Lemma nearlyEqual_Qeq (qs qs' : list Q) :
  Qsum qs' == Qsum qs ->
  nearlyEqual (sum_sizes (map XFin qs)) (dec 1 0) = true ->
  nearlyEqual (sum_sizes (map XFin qs')) (dec 1 0) = true.
Proof.
  intros Heq. unfold nearlyEqual, nearlyEqual_eps.
  destruct (sum_sizes_XFin qs) as (s & -> & Hs).
  destruct (sum_sizes_XFin qs') as (s' & -> & Hs').
  cbn [Math_abs nsub nle dec exact_number].
  unfold Exact.sub, Exact.lit. cbn [Exact.opp Exact.add Exact.abs Exact.leb].
  assert (E : s' == s) by (rewrite Hs, Hs'; done).
  rewrite !Qle_bool_iff. by rewrite E.
Qed.

(** At a divider of a well-formed split, for a delta that is a number,
    [applyResize] returns a well-formed split. *)
Lemma applyResize_well_formed id d (sizes : list xnum) (children : list (Node xnum))
    (index : nat) (delta : xnum) :
  well_formed (Split id d sizes children) = true ->
  (index + 2 <= length children)%nat -> delta <> XNaN ->
  well_formed (applyResize (Split id d sizes children) index delta) = true.
Proof.
  intros Hwf Hidx Hd. simpl in Hwf. rewrite !andb_true_iff in Hwf.
  destruct Hwf as (((Hpos & Hlen) & Hsum) & Hch).
  destruct (nearlyEqual_fin sizes Hsum) as [qs ->].
  apply Nat.eqb_eq in Hlen. rewrite length_map in Hlen.
  destruct (lookup_lt_is_Some_2 qs index) as [x Hx]; [lia |].
  destruct (lookup_lt_is_Some_2 qs (index + 1)) as [y Hy]; [lia |].
  destruct (applyResize_rational id d qs children index delta x y Hx Hy Hd) as (a & _ & ->).
  simpl. rewrite !andb_true_iff. repeat split; try done.
  - apply Nat.eqb_eq. by rewrite length_map, !length_insert.
  - apply (nearlyEqual_Qeq qs); [| done].
    rewrite (Qsum_insert _ (index + 1) y), (Qsum_insert _ index x) by
      (done || (rewrite list_lookup_insert_ne by lia; done)).
    ring.
Qed.

(** The fraction a drag passes on is a rational whenever the pointer
    coordinates are. *)
Lemma dragFraction_fin (cur start : Q) (totalPx : xnum) :
  exists f, dragFraction (XFin cur) (XFin start) totalPx = XFin f.
Proof.
  unfold dragFraction. change (dec 0 0) with (XFin 0).
  change (nsub (XFin cur) (XFin start)) with (XFin (cur + - start)).
  cbn [nlt ndiv exact_number].
  destruct totalPx as [| [] | t]; cbn [Exact.ltb negb Exact.div]; eauto.
  destruct (Qle_bool t 0) eqn:E; cbn [negb]; [eauto |].
  unfold Exact.is_zero. destruct (Qeq_bool t 0) eqn:E0; [| eauto].
  apply Qeq_bool_iff in E0. assert (Hle : t <= 0) by lra.
  apply Qle_bool_iff in Hle. congruence.
Qed.

End ExactResize.

(* ================================================================== *)
(** * Properties of the editing operations *)
(* ================================================================== *)

(** X1.  [updateNode] with an updater that hands back, unchanged, every
    node of the tree that carries the identifier returns the tree itself.
    So the resize handler aimed at a leaf changes nothing. *)
Theorem updateNode_identity {num : Type} `{JSNumber num}
    (root : Node num) (id : string) (updater : Node num -> Node num) :
  (forall n, n ∈ preorder root -> node_id n = id -> updater n = n) ->
  updateNode root id updater = root.
Proof. apply updateNode_fixed. Qed.

Lemma updateNode_identity_witness :
  let root : Node float := sample_page in
  let resize := fun n : Node float => applyResize n 0 0.1%float in
  (forall n, n ∈ preorder root -> node_id n = "p0q8w2b"%string -> resize n = n)
  /\ updateNode root "p0q8w2b" resize = root.
Proof.
  cbv zeta.
  assert (Hfix : forall n : Node float, n ∈ preorder sample_page ->
                   node_id n = "p0q8w2b"%string -> applyResize n 0 0.1%float = n).
  { intros n Hn Hid. vm_compute in Hn.
    repeat (apply elem_of_cons in Hn as [-> | Hn]; [first [discriminate Hid | reflexivity] |]).
    by apply elem_of_nil in Hn. }
  split; [exact Hfix |].
  exact (updateNode_identity sample_page "p0q8w2b" _ Hfix).
Defined.

(** X2.  Two successive updates of the same node amount to one update by
    the composed updater, provided the first keeps the node's
    identifier. *)
Theorem updateNode_compose {num : Type} `{JSNumber num}
    (root : Node num) (id : string) (f g : Node num -> Node num) :
  (forall n, node_id n = id -> node_id (f n) = id) ->
  updateNode (updateNode root id f) id g = updateNode root id (fun n => g (f n)).
Proof. apply updateNode_updateNode. Qed.

Lemma updateNode_compose_witness :
  let root : Node float := sample_page in
  let f := fun n : Node float => applyResize n 0 0.125%float in
  let g := fun n : Node float => applyResize n 0 (-0.25)%float in
  (forall n, node_id n = "m5n7v4c"%string -> node_id (f n) = "m5n7v4c"%string)
  /\ updateNode (updateNode root "m5n7v4c" f) "m5n7v4c" g
     = updateNode root "m5n7v4c" (fun n => g (f n)).
Proof.
  cbv zeta.
  assert (Hid : forall n : Node float, node_id n = "m5n7v4c"%string ->
                  node_id (applyResize n 0 0.125%float) = "m5n7v4c"%string).
  { intros [l | i d s c] Hn; exact Hn. }
  split; [exact Hid |].
  exact (updateNode_compose sample_page "m5n7v4c" _ _ Hid).
Defined.

(** X3.  The resize handler never changes which identifiers the pages
    hold, nor their order, whatever the page index, identifier, divider
    index and delta. *)
Theorem onResize_keeps_identifiers {num : Type} `{JSNumber num}
    (pageIdx : nat) (id : string) (index : nat) (delta : num) (pages : list (Node num)) :
  map ids (onResize pageIdx id index delta pages) = map ids pages.
Proof.
  apply list_eq. intros i. unfold onResize.
  change (map ids ?l) with (ids <$> l). rewrite !list_lookup_fmap, updatePage_lookup.
  destruct (decide (i = pageIdx)); [| done].
  destruct (pages !! i) as [pg |]; [| done]. simpl. f_equal.
  apply updateNode_ids. intros n _. apply applyResize_ids.
Qed.

(** X4.  [updateNode] keeps a tree well-formed (every split with a child,
    as many sizes as children, sizes summing to 1 within tolerance) when the
    updater returns a well-formed node for every well-formed node of the
    tree that carries the identifier. *)
Theorem updateNode_keeps_well_formed {num : Type} `{JSNumber num}
    (root : Node num) (id : string) (updater : Node num -> Node num) :
  well_formed root = true ->
  (forall n, n ∈ preorder root -> node_id n = id ->
             well_formed n = true -> well_formed (updater n) = true) ->
  well_formed (updateNode root id updater) = true.
Proof. apply updateNode_well_formed. Qed.

Lemma updateNode_keeps_well_formed_witness :
  let root : Node float := sample_page in
  let flip := fun n : Node float =>
                match n with
                | Split i _ s c => Split i horizontal s c
                | Leaf _ => n
                end in
  well_formed root = true
  /\ (forall n, n ∈ preorder root -> node_id n = "m5n7v4c"%string ->
                well_formed n = true -> well_formed (flip n) = true)
  /\ well_formed (updateNode root "m5n7v4c" flip) = true.
Proof.
  cbv zeta.
  assert (Hwf : well_formed (sample_page (num := float)) = true) by reflexivity.
  assert (Hup : forall n : Node float, n ∈ preorder sample_page ->
                  node_id n = "m5n7v4c"%string -> well_formed n = true ->
                  well_formed match n with
                              | Split i _ s c => Split i horizontal s c
                              | Leaf _ => n
                              end = true).
  { intros [l | i d s c] _ _ Hn; exact Hn. }
  split; [exact Hwf |]. split; [exact Hup |].
  exact (updateNode_keeps_well_formed sample_page "m5n7v4c" _ Hwf Hup).
Defined.







(** X8.  In binary64, the zoom [fit] computes is positive for every
    aspect ratio, page gap and container size, NaN and infinities
    included: it is never zero, negative or NaN. *)
Theorem fitZoom_positive (aspect pageGap clientWidth clientHeight : float) :
  PrimFloat.ltb 0 (fitZoom aspect pageGap clientWidth clientHeight) = true.
Proof.
  unfold fitZoom. cbv zeta. change (dec 0 0) with 0%float. change (dec 1 0) with 1%float.
  cbn [nlt float_number]. set (z := Math_min _ _).
  destruct (PrimFloat.ltb 0 z) eqn:E; [exact E | reflexivity].
Qed.

Lemma div_XFin (p q : Q) : ~ (q == 0)%Q -> ndiv (XFin p) (XFin q) = XFin (p / q).
Proof.
  intros Hq. cbn [ndiv exact_number]. unfold Exact.div, Exact.is_zero.
  destruct (Qeq_bool q 0) eqn:E; [| done]. by apply Qeq_bool_iff in E.
Qed.



(* ================================================================== *)
(** * Generated text and images *)
(* ================================================================== *)

Section Generated.

Context {num : Type} `{JSNumber num}.

Lemma append_assoc (a b c : string) : ((a ++ b) ++ c = a ++ (b ++ c))%string.
Proof. induction a as [| x a IHa]; simpl; [done | by rewrite IHa]. Qed.

Lemma text_or_empty_truthy (s : string) : text_or_empty (Some s) = s.
Proof. by destruct s. Qed.

Lemma appendGeneratedLine_twice (t : option string) (a b : string) :
  a <> EmptyString ->
  appendGeneratedLine (Some (appendGeneratedLine t a)) b
  = appendGeneratedLine t (a ++ nl ++ nl ++ b)%string.
Proof.
  intros Ha. destruct t as [[| c s] |].
  - destruct a as [| x a]; [done | reflexivity].
  - unfold appendGeneratedLine. cbn [truthy]. simpl. by rewrite !append_assoc.
  - destruct a as [| x a]; [done | reflexivity].
Qed.

(** Updaters that leave splits alone and map a leaf to a leaf with the
    same identifier commute under [updateNode] when they commute on
    leaves. *)
Lemma updateNode_commute root id id' (f g : Node num -> Node num) :
  (forall i d s c, f (Split i d s c) = Split i d s c) ->
  (forall i d s c, g (Split i d s c) = Split i d s c) ->
  (forall l, exists l', f (Leaf l) = Leaf l' /\ leaf_id l' = leaf_id l) ->
  (forall l, exists l', g (Leaf l) = Leaf l' /\ leaf_id l' = leaf_id l) ->
  (forall l, f (g (Leaf l)) = g (f (Leaf l))) ->
  updateNode (updateNode root id f) id' g = updateNode (updateNode root id' g) id f.
Proof.
  intros Hfs Hgs Hfl Hgl Hfg.
  induction root as [l | i d sizes children IH] using Node_ind'.
  - destruct (Hfl l) as (lf & Ef & Hlf). destruct (Hgl l) as (lg & Eg & Hlg).
    simpl. destruct (String.eqb (leaf_id l) id) eqn:E, (String.eqb (leaf_id l) id') eqn:E'.
    + rewrite Ef, Eg. simpl. rewrite Hlf, Hlg, E, E'. by rewrite <- Ef, <- Eg.
    + rewrite Ef. simpl. rewrite Hlf, E', E. done.
    + rewrite Eg. simpl. rewrite Hlg, E, E'. done.
    + simpl. by rewrite E, E'.
  - destruct (String.eqb i id) eqn:E, (String.eqb i id') eqn:E'.
    + simpl. rewrite E, E', !Hfs, !Hgs. simpl. by rewrite E, E', Hfs, Hgs.
    + simpl. rewrite E, E', Hfs. simpl. by rewrite E, E', Hfs.
    + simpl. rewrite E, E', Hgs. simpl. by rewrite E, E', Hgs.
    + simpl. rewrite E, E'. simpl. rewrite E, E'. f_equal.
      rewrite !map_map. apply map_ext_in. intros c Hc.
      rewrite Forall_forall in IH. apply IH. by apply list_elem_of_In.
Qed.

End Generated.

(** X10.  Generating two lines in a row, the first not empty, leaves the
    panel as generating once the two lines joined by a blank line. *)
Theorem generatedText_twice {num : Type} `{JSNumber num} (a b : string) (n : Node num) :
  a <> EmptyString ->
  generatedTextUpdater b (generatedTextUpdater a n)
  = generatedTextUpdater (a ++ nl ++ nl ++ b)%string n.
Proof.
  intros Ha. destruct n as [l | i d s c]; [| done].
  unfold generatedTextUpdater. cbn [textProps tp_text leaf_id contentType imageProps
    tp_align tp_fontSize tp_lineHeight tp_padding tp_bg tp_italic tp_bold tp_radius
    tp_fontFamily tp_letterSpacing tp_wordSpacing].
  rewrite text_or_empty_truthy. by rewrite appendGeneratedLine_twice.
Qed.

Lemma generatedText_twice_witness :
  let n : Node float := Leaf (sample_leaf "a") in
  "Thunder crashes"%string <> EmptyString
  /\ generatedTextUpdater "A whisper" (generatedTextUpdater "Thunder crashes" n)
     = generatedTextUpdater ("Thunder crashes" ++ nl ++ nl ++ "A whisper")%string n.
Proof.
  cbv zeta.
  assert (Ha : "Thunder crashes"%string <> EmptyString) by discriminate.
  split; [exact Ha |].
  exact (generatedText_twice "Thunder crashes" "A whisper" (Leaf (sample_leaf "a")) Ha).
Defined.

(** X11.  A generated line and a generated image can be put into the page
    in either order, whichever nodes the two requests were started for: the
    resulting tree is the same. *)
Theorem generated_text_and_image_commute {num : Type} `{JSNumber num}
    (root : Node num) (id id' : string) (prompt imageURL : string) :
  updateNode (updateNode root id (generatedTextUpdater prompt)) id'
             (generatedImageUpdater imageURL)
  = updateNode (updateNode root id' (generatedImageUpdater imageURL)) id
               (generatedTextUpdater prompt).
Proof.
  apply updateNode_commute; try done.
  - intros l. eexists. split; [reflexivity | reflexivity].
  - intros l. eexists. split; [reflexivity | reflexivity].
Qed.

(* ================================================================== *)
(** * Page lists *)
(* ================================================================== *)

Section PageLists.

Context {A : Type}.

Implicit Types (l : list A) (x : A).

Lemma filter_index_from_all (keep : nat -> bool) (j : nat) l :
  (forall i, j <= i -> keep i = true) -> filter_index_from keep j l = l.
Proof.
  revert j. induction l as [| x xs IHxs]; intros j Hk; [done |].
  simpl. rewrite Hk by lia. f_equal. apply IHxs. intros i Hi. apply Hk. lia.
Qed.

Lemma filter_index_from_delete (keep : nat -> bool) (j k : nat) l :
  (forall i, j <= i -> keep i = negb (i =? j + k)) ->
  filter_index_from keep j l = delete k l.
Proof.
  revert j k. induction l as [| x xs IHxs]; intros j k Hk; [done |].
  simpl. rewrite Hk by lia. destruct k as [| k]; simpl.
  - rewrite Nat.add_0_r, Nat.eqb_refl. simpl.
    apply filter_index_from_all. intros i Hi. rewrite Hk by lia.
    apply negb_true_iff, Nat.eqb_neq. lia.
  - replace (j =? j + S k) with false by (symmetry; apply Nat.eqb_neq; lia).
    simpl. f_equal. apply IHxs. intros i Hi. rewrite Hk by lia.
    by replace (S j + k) with (j + S k) by lia.
Qed.

(** Filtering out one index deletes that element, or nothing when the
    index is past the end. *)
Lemma filter_index_delete (k : nat) l :
  filter_index (fun i => negb (i =? k)) l = delete k l.
Proof. apply filter_index_from_delete. done. Qed.

Lemma length_delete_le (k : nat) l : length l - 1 <= length (delete k l) <= length l.
Proof.
  rewrite delete_take_drop, length_app, length_take, length_drop. lia.
Qed.

Lemma length_delete_lt (k : nat) l : k < length l -> length (delete k l) = length l - 1.
Proof. intros Hk. rewrite delete_take_drop, length_app, length_take, length_drop. lia. Qed.

Lemma length_insert_after (i : nat) x l : length (insert_after i x l) = S (length l).
Proof.
  unfold insert_after. rewrite length_app. simpl.
  pose proof (length_take l (i + 1)). pose proof (length_drop l (i + 1)). lia.
Qed.

Lemma insert_after_lookup_le (i j : nat) x l :
  j <= i -> j < length l -> insert_after i x l !! j = l !! j.
Proof.
  intros Hj Hl. unfold insert_after.
  rewrite lookup_app_l by (rewrite length_take; lia). apply lookup_take_lt. lia.
Qed.

Lemma insert_after_lookup_new (i : nat) x l :
  i < length l -> insert_after i x l !! (i + 1) = Some x.
Proof.
  intros Hi. unfold insert_after.
  rewrite lookup_app_r by (rewrite length_take; lia).
  rewrite length_take. by replace (i + 1 - (i + 1) `min` length l) with 0 by lia.
Qed.

Lemma insert_after_lookup_gt (i j : nat) x l :
  i < j -> insert_after i x l !! (j + 1) = l !! j.
Proof.
  intros Hj. unfold insert_after.
  destruct (decide (j < length l)) as [Hl | Hl].
  - rewrite lookup_app_r by (rewrite length_take; lia).
    rewrite length_take. replace (j + 1 - (i + 1) `min` length l) with (S (j - (i + 1))) by lia.
    simpl. rewrite lookup_drop. f_equal. lia.
  - rewrite (lookup_ge_None_2 l j) by lia. apply lookup_ge_None_2.
    rewrite length_app. simpl. rewrite length_take, length_drop. lia.
Qed.

End PageLists.

(** X12.  [deletePage] of the spreads editor never removes the last page,
    and a selected page that exists before exists after: with more than one
    page the selected page is removed, the selection moves to the page
    before it (or stays at 0) and the selected panel is cleared. *)
Theorem sp_deletePage_keeps_selection {num : Type} `{JSNumber num} (st : Spreads num) :
  sp_selectedPage st < length (sp_pages st) ->
  let st' := sp_deletePage st in
  1 <= length (sp_pages st')
  /\ sp_selectedPage st' < length (sp_pages st')
  /\ (1 < length (sp_pages st) ->
      sp_pages st' = delete (sp_selectedPage st) (sp_pages st)
      /\ sp_selectedPage st' = sp_selectedPage st - 1
      /\ sp_selectedId st' = ""%string).
Proof.
  intros Hsel. cbv zeta. unfold sp_deletePage.
  destruct (length (sp_pages st) <=? 1) eqn:E.
  - apply Nat.leb_le in E. split; [lia |]. split; [done |]. intros; lia.
  - apply Nat.leb_gt in E. cbn [sp_pages sp_selectedPage sp_selectedId].
    rewrite filter_index_delete.
    rewrite (length_delete_lt _ _ Hsel).
    split; [lia |]. split; [lia |]. intros _. split; [done |]. split; [lia | done].
Qed.

Lemma sp_deletePage_keeps_selection_witness :
  let st : Spreads float :=
    {| sp_pages := [sample_page; Leaf (sample_leaf "b"); Leaf (sample_leaf "c")];
       sp_selectedPage := 0; sp_selectedId := "k3j9x1a" |} in
  sp_selectedPage st < length (sp_pages st)
  /\ sp_deletePage st
     = {| sp_pages := [Leaf (sample_leaf "b"); Leaf (sample_leaf "c")];
          sp_selectedPage := 0; sp_selectedId := "" |}
  /\ sp_selectedPage (sp_deletePage st) < length (sp_pages (sp_deletePage st)).
Proof.
  cbv zeta.
  assert (Hsel : 0 < 3) by lia.
  split; [exact Hsel |]. split; [reflexivity |].
  exact (proj1 (proj2 (sp_deletePage_keeps_selection
    {| sp_pages := [sample_page (num := float); Leaf (sample_leaf "b"); Leaf (sample_leaf "c")];
       sp_selectedPage := 0; sp_selectedId := "k3j9x1a" |} Hsel))).
Defined.

(** X13.  [duplicatePage] of the spreads editor puts the copy of the
    selected page right after it, keeps the pages up to it in place, moves
    the later ones one slot down and draws no identifier.  Without a
    selected page it appends the copy of a fresh full-bleed page, for which
    two identifiers are drawn. *)
Theorem sp_duplicatePage_places_copy {num : Type} `{JSNumber num}
    (clone : Node num -> Node num) (st : Spreads num) (rnd : nat -> string) (k : nat) :
  let r := sp_duplicatePage clone st rnd k in
  let sel := sp_selectedPage st in
  length (sp_pages (fst r)) = S (length (sp_pages st))
  /\ (forall pg, sp_pages st !! sel = Some pg ->
        snd r = k
        /\ sp_pages (fst r) !! (sel + 1) = Some (clone pg)
        /\ (forall j, j <= sel -> sp_pages (fst r) !! j = sp_pages st !! j)
        /\ (forall j, sel < j -> sp_pages (fst r) !! (j + 1) = sp_pages st !! j))
  /\ (sp_pages st !! sel = None ->
        snd r = k + 2
        /\ sp_pages (fst r) = sp_pages st ++ [clone (fst (layoutFullBleed rnd k))]).
Proof.
  cbv zeta. unfold sp_duplicatePage.
  destruct (sp_pages st !! sp_selectedPage st) as [pg |] eqn:Hp.
  - cbn. split; [apply length_insert_after |]. split; [| done].
    intros pg' [= <-]. apply lookup_lt_Some in Hp as Hlt.
    split; [done |]. split; [by apply insert_after_lookup_new |]. split.
    + intros j Hj. apply insert_after_lookup_le; lia.
    + intros j Hj. by apply insert_after_lookup_gt.
  - cbv beta iota zeta delta [mbind mret Gen_bind Gen_ret layoutFullBleed DEFAULT_LEAF uid].
    cbn [fst snd sp_pages].
    split; [apply length_insert_after |]. split; [done |].
    intros _. split; [lia |].
    apply lookup_ge_None in Hp. unfold insert_after.
    rewrite take_ge, drop_ge by lia. done.
Qed.

(** X14.  Every page operation of the builder keeps the document in a
    state it relies on: one page info per page, at least one page, and a
    selected page that exists. *)
Theorem page_step_keeps_document_ok {Page : Type} (clone : Page -> Page)
    (op : PageOp Page) (st st' : Document Page) :
  document_ok Page st -> page_step Page clone op st = Some st' -> document_ok Page st'.
Proof.
  intros (Hlen & Hone & Hsel) Hstep. unfold document_ok.
  destruct op as [newPage uuid | index | index uuid | index name | index]; simpl in Hstep.
  - injection Hstep as <-. cbn. rewrite !length_app. simpl. lia.
  - injection Hstep as <-. unfold deletePage.
    destruct (length (pages Page st) <=? 1) eqn:E; [done |].
    apply Nat.leb_gt in E. cbn. rewrite !filter_index_delete.
    pose proof (length_delete_le index (pages Page st)) as Hd.
    assert (Hi : length (delete index (pageInfos Page st))
                 = length (delete index (pages Page st))).
    { rewrite !delete_take_drop, !length_app, !length_take, !length_drop. lia. }
    split; [done |]. split; [lia |].
    destruct (length (pages Page st) - 1 <=? selectedPage Page st) eqn:E'.
    + lia.
    + apply Nat.leb_gt in E'. lia.
  - unfold duplicatePage in Hstep.
    destruct (pages Page st !! index) as [pg |]; [| done].
    destruct (pageInfos Page st !! index) as [info |]; [| done].
    injection Hstep as <-. cbn. rewrite !length_insert_after. lia.
  - injection Hstep as <-. cbn. rewrite length_imap. lia.
  - injection Hstep as <-. cbn. rewrite length_imap. lia.
Qed.

Lemma page_step_keeps_document_ok_witness :
  let st : Document nat :=
    {| pages := [10; 20];
       pageInfos := [mkPageInfo "u1" "Page 1" false; mkPageInfo "u2" "Page 2" false];
       selectedPage := 1 |} in
  let st' : Document nat :=
    {| pages := [10];
       pageInfos := [mkPageInfo "u1" "Page 1" false];
       selectedPage := 0 |} in
  document_ok nat st /\ page_step nat id (OpDelete nat 1) st = Some st'
  /\ document_ok nat st'.
Proof.
  cbv zeta.
  assert (Hok : document_ok nat
                  {| pages := [10; 20];
                     pageInfos := [mkPageInfo "u1" "Page 1" false;
                                   mkPageInfo "u2" "Page 2" false];
                     selectedPage := 1 |}) by (unfold document_ok; simpl; lia).
  split; [exact Hok |]. split; [reflexivity |].
  exact (page_step_keeps_document_ok id (OpDelete nat 1) _ _ Hok eq_refl).
Defined.

(** X15.  Hiding a page and hiding it again, or showing and showing
    again, gives back the document: [togglePageHidden] undoes itself. *)
Theorem togglePageHidden_twice {Page : Type} (index : nat) (st : Document Page) :
  togglePageHidden Page index (togglePageHidden Page index st) = st.
Proof.
  destruct st as [pgs infos sel]. unfold togglePageHidden. cbn. f_equal.
  apply list_eq. intros i. rewrite !list_lookup_imap.
  destruct (infos !! i) as [[pid pname hidden] |]; [| done]. simpl.
  destruct (decide (i = index)); [| done]. simpl. by rewrite negb_involutive.
Qed.

(** X16.  [duplicatePage] of the builder fails exactly when the index is
    past the last page.  Otherwise the copy sits right after the page, its
    info carries the new identifier, the name followed by " (Copy)" and the
    same hidden flag, and the page and its info stay where they were. *)
Theorem duplicatePage_places_copy {Page : Type} (clone : Page -> Page)
    (index : nat) (uuid : string) (st : Document Page) :
  length (pageInfos Page st) = length (pages Page st) ->
  (duplicatePage Page clone index uuid st = None <-> length (pages Page st) <= index)
  /\ (forall pg info,
        pages Page st !! index = Some pg -> pageInfos Page st !! index = Some info ->
        exists st',
          duplicatePage Page clone index uuid st = Some st'
          /\ pages Page st' !! index = Some pg
          /\ pages Page st' !! (index + 1) = Some (clone pg)
          /\ pageInfos Page st' !! index = Some info
          /\ pageInfos Page st' !! (index + 1)
             = Some (mkPageInfo uuid (pi_name info ++ " (Copy)") (pi_hidden info))
          /\ selectedPage Page st' = selectedPage Page st).
Proof.
  intros Hlen. split.
  - unfold duplicatePage. split.
    + destruct (pages Page st !! index) as [pg |] eqn:Hp.
      * destruct (pageInfos Page st !! index) as [info |] eqn:Hi; [done |].
        intros _. apply lookup_ge_None in Hi. lia.
      * intros _. by apply lookup_ge_None in Hp.
    + intros Hge. by rewrite (lookup_ge_None_2 _ _ Hge).
  - intros pg info Hp Hi. unfold duplicatePage. rewrite Hp, Hi.
    eexists. split; [done |]. cbn.
    apply lookup_lt_Some in Hp as Hp'. apply lookup_lt_Some in Hi as Hi'.
    rewrite !insert_after_lookup_new by done.
    rewrite !insert_after_lookup_le by lia. done.
Qed.

Lemma duplicatePage_places_copy_witness :
  let st : Document nat :=
    {| pages := [10; 20];
       pageInfos := [mkPageInfo "u1" "Cover" false; mkPageInfo "u2" "Page 2" true];
       selectedPage := 0 |} in
  length (pageInfos nat st) = length (pages nat st)
  /\ duplicatePage nat S 1 "u3" st
     = Some {| pages := [10; 20; 21];
               pageInfos := [mkPageInfo "u1" "Cover" false; mkPageInfo "u2" "Page 2" true;
                             mkPageInfo "u3" "Page 2 (Copy)" true];
               selectedPage := 0 |}
  /\ (duplicatePage nat S 2 "u3" st = None <-> 2 <= 2).
Proof.
  cbv zeta. split; [reflexivity |]. split; [reflexivity |].
  exact (proj1 (duplicatePage_places_copy S 2 "u3"
    {| pages := [10; 20];
       pageInfos := [mkPageInfo "u1" "Cover" false; mkPageInfo "u2" "Page 2" true];
       selectedPage := 0 |} eq_refl)).
Defined.

(* ================================================================== *)
(** * Undo and redo *)
(* ================================================================== *)

(** X17.  The history index always points into the history and [pages] is
    never left undefined: an edit establishes this, and undo and redo keep
    it. *)
Theorem history_index_in_range {Snapshot : Type} (clone : Snapshot -> Snapshot)
    (newPages : Snapshot) (st : HistoryState Snapshot) :
  let ok := fun s : HistoryState Snapshot =>
              historyIndex Snapshot s < length (history Snapshot s)
              /\ is_Some (h_pages Snapshot s) in
  ok (commitPages Snapshot clone newPages st)
  /\ (ok st -> ok (undo Snapshot st))
  /\ (ok st -> ok (redo Snapshot st)).
Proof.
  cbv zeta. split; [| split].
  - unfold commitPages, saveToHistory. cbn. rewrite length_app. simpl. split; [lia | eauto].
  - intros [Hidx Hp]. unfold undo. destruct (0 <? historyIndex Snapshot st) eqn:E; [| done].
    cbn. split; [lia |]. apply lookup_lt_is_Some_2. lia.
  - intros [Hidx Hp]. unfold redo.
    destruct (historyIndex Snapshot st <? length (history Snapshot st) - 1) eqn:E; [| done].
    apply Nat.ltb_lt in E. cbn. split; [lia |]. apply lookup_lt_is_Some_2. lia.
Qed.



(** X19.  Undo followed by redo gives back the state it started from,
    when there is something to undo and the pages shown are the snapshot
    at the history index. *)
Theorem redo_undo_round_trip {Snapshot : Type} (st : HistoryState Snapshot) :
  0 < historyIndex Snapshot st ->
  historyIndex Snapshot st < length (history Snapshot st) ->
  h_pages Snapshot st = history Snapshot st !! historyIndex Snapshot st ->
  redo Snapshot (undo Snapshot st) = st.
Proof.
  destruct st as [pg hist [| i]]; cbn [h_pages history historyIndex]; intros Hpos Hidx ->;
    [lia |].
  unfold undo. cbn [h_pages history historyIndex Nat.ltb Nat.leb].
  replace (S i - 1) with i by lia.
  unfold redo. cbn [h_pages history historyIndex].
  replace (i <? length hist - 1) with true by (symmetry; apply Nat.ltb_lt; lia).
  by rewrite Nat.add_1_r.
Qed.

Lemma redo_undo_round_trip_witness :
  let st : HistoryState nat := {| h_pages := Some 9; history := [5; 7; 9]; historyIndex := 2 |} in
  0 < historyIndex nat st /\ historyIndex nat st < length (history nat st)
  /\ h_pages nat st = history nat st !! historyIndex nat st
  /\ undo nat st = {| h_pages := Some 7; history := [5; 7; 9]; historyIndex := 1 |}
  /\ redo nat (undo nat st) = st.
Proof.
  cbv zeta.
  assert (H1 : 0 < 2) by lia. assert (H2 : 2 < 3) by lia.
  split; [exact H1 |]. split; [exact H2 |]. split; [reflexivity |]. split; [reflexivity |].
  exact (redo_undo_round_trip {| h_pages := Some 9; history := [5; 7; 9]; historyIndex := 2 |}
           H1 H2 eq_refl).
Defined.


(* ================================================================== *)
(** * Keyboard shortcuts and zoom *)
(* ================================================================== *)

(** X21.  A key event triggers a shortcut only when shortcuts are
    enabled and the event does not come from an input, a text area or an
    editable element; and without Ctrl or Meta the only keys that trigger
    anything are Delete and Backspace (delete the panel) and Escape
    (deselect). *)
Theorem shortcut_needs_focus_and_modifier (enabled : bool) (e : KeyEvent) (s : Shortcut) :
  handleKeyDown enabled e = Some s ->
  enabled = true
  /\ tagName e <> "INPUT"%string /\ tagName e <> "TEXTAREA"%string
  /\ isContentEditable e = false
  /\ (ctrlKey e = false -> metaKey e = false ->
      (s = onDelete /\ (key e = "Delete"%string \/ key e = "Backspace"%string))
      \/ (s = onDeselect /\ key e = "Escape"%string)).
Proof.
  unfold handleKeyDown. destruct enabled; [| done]. cbn [negb].
  destruct (String.eqb (tagName e) "INPUT") eqn:E1; [done |].
  destruct (String.eqb (tagName e) "TEXTAREA") eqn:E2; [done |].
  destruct (isContentEditable e) eqn:E3; [done |]. cbn [orb].
  apply String.eqb_neq in E1, E2. intros Hs.
  split; [done |]. split; [done |]. split; [done |]. split; [done |].
  intros Hc Hm. rewrite Hc, Hm in Hs. cbn [orb andb] in Hs.
  destruct (String.eqb (key e) "Delete") eqn:K1.
  { apply String.eqb_eq in K1. injection Hs as <-. left. eauto. }
  destruct (String.eqb (key e) "Backspace") eqn:K2.
  { apply String.eqb_eq in K2. injection Hs as <-. left. eauto. }
  cbn [orb] in Hs.
  destruct (String.eqb (key e) "Escape") eqn:K3; [| done].
  apply String.eqb_eq in K3. injection Hs as <-. right. eauto.
Qed.

Lemma shortcut_needs_focus_and_modifier_witness :
  let e := {| tagName := "DIV"; isContentEditable := false; ctrlKey := false;
              metaKey := false; shiftKey := true; key := "Backspace" |} in
  handleKeyDown true e = Some onDelete
  /\ tagName e <> "INPUT"%string
  /\ handleKeyDown true {| tagName := "TEXTAREA"; isContentEditable := false; ctrlKey := true;
                           metaKey := false; shiftKey := false; key := "z" |} = None.
Proof.
  cbv zeta. split; [reflexivity |]. split; [| reflexivity].
  exact (proj1 (proj2 (shortcut_needs_focus_and_modifier true
    {| tagName := "DIV"; isContentEditable := false; ctrlKey := false;
       metaKey := false; shiftKey := true; key := "Backspace" |} onDelete eq_refl))).
Defined.

(** X22.  Outside text fields, Delete and Backspace delete the selected
    panel whatever modifier keys are held, and Ctrl or Meta with Z is undo
    without Shift and redo with it. *)
Theorem delete_and_undo_keys (e : KeyEvent) :
  tagName e <> "INPUT"%string -> tagName e <> "TEXTAREA"%string ->
  isContentEditable e = false ->
  (key e = "Delete"%string \/ key e = "Backspace"%string ->
   handleKeyDown true e = Some onDelete)
  /\ (key e = "z"%string -> (ctrlKey e || metaKey e)%bool = true ->
      handleKeyDown true e = Some (if shiftKey e then onRedo else onUndo)).
Proof.
  intros H1 H2 H3. unfold handleKeyDown. cbn [negb].
  apply String.eqb_neq in H1, H2. rewrite H1, H2, H3. cbn [orb].
  split.
  - intros [-> | ->]; destruct (ctrlKey e || metaKey e)%bool, (shiftKey e); reflexivity.
  - intros -> ->. by destruct (shiftKey e).
Qed.

Lemma delete_and_undo_keys_witness :
  let e := {| tagName := "BODY"; isContentEditable := false; ctrlKey := false;
              metaKey := true; shiftKey := true; key := "z" |} in
  tagName e <> "INPUT"%string /\ tagName e <> "TEXTAREA"%string
  /\ isContentEditable e = false /\ handleKeyDown true e = Some onRedo.
Proof.
  cbv zeta.
  assert (H1 : "BODY"%string <> "INPUT"%string) by discriminate.
  assert (H2 : "BODY"%string <> "TEXTAREA"%string) by discriminate.
  split; [exact H1 |]. split; [exact H2 |]. split; [reflexivity |].
  exact (proj2 (delete_and_undo_keys
    {| tagName := "BODY"; isContentEditable := false; ctrlKey := false;
       metaKey := true; shiftKey := true; key := "z" |} H1 H2 eq_refl) eq_refl eq_refl).
Defined.

Section ExactZoom.

Local Open Scope Q_scope.

Lemma zoomIn_XFin (z : Q) : zoomIn (XFin z) = XFin (qmin 2 (z * (12 # 10))).
Proof.
  unfold zoomIn. change (dec 2 0) with (XFin 2). change (dec 12 1) with (XFin (12 # 10)).
  change (nmul (XFin z) (XFin (12 # 10))) with (XFin (z * (12 # 10))). apply min_XFin.
Qed.

Lemma zoomOut_XFin (z : Q) : zoomOut (XFin z) = XFin (qmax (1 # 10) (z / (12 # 10))).
Proof.
  unfold zoomOut. change (dec 1 1) with (XFin (1 # 10)).
  change (dec 12 1) with (XFin (12 # 10)).
  rewrite div_XFin by (intros E; discriminate E). apply max_XFin.
Qed.

Lemma zoomIn_range (z : Q) :
  1 # 10 <= z -> 1 # 10 <= qmin 2 (z * (12 # 10)) /\ qmin 2 (z * (12 # 10)) <= 2.
Proof. intros Hz. destruct (qmin_cases 2 (z * (12 # 10))) as [[H1 ->] | [H1 ->]]; lra. Qed.

Lemma zoomOut_range (z : Q) :
  z <= 2 -> 1 # 10 <= qmax (1 # 10) (z / (12 # 10)) /\ qmax (1 # 10) (z / (12 # 10)) <= 2.
Proof.
  intros Hz. assert (E : z / (12 # 10) == z * (10 # 12)) by (field; discriminate).
  destruct (qmax_cases (1 # 10) (z / (12 # 10))) as [[H1 ->] | [H1 ->]]; lra.
Qed.

End ExactZoom.

(** X23.  In exact arithmetic, whatever key is pressed, a zoom between
    0.1 and 2 stays between 0.1 and 2. *)
Theorem zoom_in_range_after_key (e : KeyEvent) (z : Q) :
  (1 # 10 <= z)%Q -> (z <= 2)%Q ->
  exists z', zoomAfterKey e (XFin z) = XFin z' /\ (1 # 10 <= z')%Q /\ (z' <= 2)%Q.
Proof.
  intros Hlo Hhi. unfold zoomAfterKey.
  destruct (handleKeyDown true e) as [[] |]; try (exists z; by repeat split).
  - rewrite zoomIn_XFin. eexists. split; [done |]. by apply zoomIn_range.
  - rewrite zoomOut_XFin. eexists. split; [done |]. by apply zoomOut_range.
  - exists (5 # 10)%Q. split; [done |]. split; by vm_compute.
Qed.

Lemma zoom_in_range_after_key_witness :
  let e := {| tagName := "BODY"; isContentEditable := false; ctrlKey := true;
              metaKey := false; shiftKey := false; key := "=" |} in
  (1 # 10 <= 19 # 10)%Q /\ (19 # 10 <= 2)%Q
  /\ zoomAfterKey e (XFin (19 # 10)) = XFin 2
  /\ exists z', zoomAfterKey e (XFin (19 # 10)) = XFin z'
                /\ (1 # 10 <= z')%Q /\ (z' <= 2)%Q.
Proof.
  cbv zeta.
  assert (H1 : (1 # 10 <= 19 # 10)%Q) by (by vm_compute).
  assert (H2 : (19 # 10 <= 2)%Q) by (by vm_compute).
  split; [exact H1 |]. split; [exact H2 |]. split; [reflexivity |].
  exact (zoom_in_range_after_key
    {| tagName := "BODY"; isContentEditable := false; ctrlKey := true;
       metaKey := false; shiftKey := false; key := "=" |} (19 # 10) H1 H2).
Defined.



(* ================================================================== *)
(** * Recent projects *)
(* ================================================================== *)

Section Filter.

Context {A : Type} (f : A -> bool).

Lemma filter_sublist (l : list A) : List.filter f l `sublist_of` l.
Proof.
  induction l as [| x l IHl]; simpl; [constructor |].
  destruct (f x); by constructor.
Qed.

Lemma filter_Forall (l : list A) : Forall (fun x => f x = true) (List.filter f l).
Proof.
  induction l as [| x l IHl]; simpl; [constructor |].
  destruct (f x) eqn:E; [by constructor | done].
Qed.

Lemma filter_all (l : list A) : Forall (fun x => f x = true) l -> List.filter f l = l.
Proof. induction 1 as [| x l Hx _ IHl]; simpl; [done |]. by rewrite Hx, IHl. Qed.

Lemma filter_keeps (l : list A) (x : A) : x ∈ l -> f x = true -> x ∈ List.filter f l.
Proof. intros Hx Hf. apply list_elem_of_In, filter_In. split; [by apply list_elem_of_In | done]. Qed.

End Filter.

(** X25.  The list [saveProject] stores starts with the saved project,
    followed by earlier projects with other identifiers in their old order,
    has at most five entries, repeats no identifier when the old list
    repeated none, and drops no other project when the old list had at most
    four entries. *)
Theorem saveRecent_most_recent_first (entry : RecentProject) (prev : list RecentProject) :
  exists rest,
    saveRecent entry prev = entry :: rest
    /\ rest `sublist_of` prev
    /\ Forall (fun p => rp_id p <> rp_id entry) rest
    /\ length (saveRecent entry prev) <= 5
    /\ (NoDup (map rp_id prev) -> NoDup (map rp_id (saveRecent entry prev)))
    /\ (length prev <= 4 ->
        forall p, p ∈ prev -> rp_id p <> rp_id entry -> p ∈ rest).
Proof.
  unfold saveRecent. cbn [take].
  set (keep := fun p => negb (String.eqb (rp_id p) (rp_id entry))).
  exists (take 4 (List.filter keep prev)).
  assert (Hsub : take 4 (List.filter keep prev) `sublist_of` prev).
  { etrans; [apply sublist_take | apply filter_sublist]. }
  assert (Hne : Forall (fun p => rp_id p <> rp_id entry) (take 4 (List.filter keep prev))).
  { apply Forall_take. eapply Forall_impl; [apply filter_Forall |].
    intros p Hp. unfold keep in Hp. by apply negb_true_iff, String.eqb_neq in Hp. }
  split; [done |]. split; [done |]. split; [done |]. split; [| split].
  - cbn [length]. rewrite length_take. lia.
  - intros Hnd. cbn [map]. apply NoDup_cons. split.
    + intros Hin. apply list_elem_of_In, in_map_iff in Hin as (p & Hid & Hp).
      apply list_elem_of_In in Hp. rewrite Forall_forall in Hne. by apply (Hne p).
    + eapply sublist_NoDup; [exact Hnd |].
      change (map rp_id ?l) with (rp_id <$> l). by apply fmap_sublist.
  - intros Hlen p Hp Hid.
    rewrite take_ge.
    + apply filter_keeps; [done |]. unfold keep. by apply negb_true_iff, String.eqb_neq.
    + pose proof (sublist_length _ _ (filter_sublist keep prev)). lia.
Qed.

(** X26.  Deleting a recent project removes every entry with its
    identifier and keeps the other entries in their order; deleting the
    project that was just saved leaves the four most recent others. *)
Theorem deleteRecent_removes (projectId : string) (entry : RecentProject)
    (prev : list RecentProject) :
  (projectId ∉ map rp_id (deleteRecent projectId prev))
  /\ deleteRecent projectId prev `sublist_of` prev
  /\ (forall p, p ∈ prev -> rp_id p <> projectId -> p ∈ deleteRecent projectId prev)
  /\ deleteRecent (rp_id entry) (saveRecent entry prev)
     = take 4 (deleteRecent (rp_id entry) prev).
Proof.
  unfold deleteRecent. split; [| split; [| split]].
  - intros Hin. apply list_elem_of_In, in_map_iff in Hin as (p & Hid & Hp).
    apply filter_In in Hp as [_ Hp]. apply negb_true_iff, String.eqb_neq in Hp. done.
  - apply filter_sublist.
  - intros p Hp Hid. apply filter_keeps; [done |]. by apply negb_true_iff, String.eqb_neq.
  - unfold saveRecent. cbn [take List.filter]. rewrite String.eqb_refl. cbn [negb].
    apply filter_all, Forall_take, filter_Forall.
Qed.
